(** * gemini-company-intel: extraction, routing, merging and confidence scoring

    A shallow embedding of the decision logic of the three pipelines
    ([discovery.py], [deep_analysis.py], [revenue.py]) and the properties
    the specification states about it.

    Conventions of the embedding.
    - A Python [str] is a list of Unicode code points ([pystr]); [py] turns
      an ASCII literal into one.
    - A [dict] is an insertion-ordered association list with unique keys.
    - [d.get(key, default)] on a record-like dict is an [option] field read
      with [default]; a key that is absent is [None].
    - A number of the scorer is a Python [int], which is exact, or a
      [float], which is a binary64 with the arithmetic of IEEE 754
      ([SpecFloat]); the builtin [sum], whose rounding differs between the
      versions of CPython, is a parameter ([Interpreter]).
    - An exception the code does not catch is an explicit [None]. *)

From Stdlib Require Import ZArith QArith Qabs Qpower Lia Ascii String SpecFloat.
From stdpp Require Import base option list gmap sets.

Set Default Proof Using "Type".
Local Open Scope Z_scope.

(** ** Python strings *)

Definition pystr := list N.

Definition py (s : string) : pystr :=
  List.map N_of_ascii (list_ascii_of_string s).

(** [s[:n]] is [take n s]. *)

Definition ch (c : ascii) : N := N_of_ascii c.

(** The double quote and the backslash, by code point. *)
Definition c_quote : N := 34.
Definition c_backslash : N := 92.

Arguments ch : simpl never.
Arguments c_quote : simpl never.
Arguments c_backslash : simpl never.

Fixpoint starts_with (p s : pystr) : bool :=
  match p, s with
  | [], _ => true
  | a :: p', b :: s' => (a =? b)%N && starts_with p' s'
  | _ :: _, [] => false
  end.

(** ** JSON values and [json.loads]

    The values [json.loads] builds. An [int] is exact. A [float] is kept
    as the literal it was read from ([float(literal)] is a function of
    it), so equality here is finer than Python's [==] on floats. *)

Unset Elimination Schemes.
Inductive json :=
  | JNull
  | JBool (b : bool)
  | JInt (z : Z)
  | JFloat (literal : pystr)
  | JStr (s : pystr)
  | JList (l : list json)
  | JDict (d : list (pystr * json)).
Set Elimination Schemes.

(** A [dict]: keys in insertion order, each once. *)
Definition dict := list (pystr * json).

(** [key in d], [d.get(key)] *)
Fixpoint dict_get (key : pystr) (d : dict) : option json :=
  match d with
  | [] => None
  | (k, v) :: d' => if decide (k = key) then Some v else dict_get key d'
  end.

(** [d[key] = v] *)
Fixpoint dict_set (key : pystr) (v : json) (d : dict) : dict :=
  match d with
  | [] => [(key, v)]
  | (k, w) :: d' => if decide (k = key) then (k, v) :: d' else (k, w) :: dict_set key v d'
  end.

(** [dict(pairs)] *)
Definition dict_of_pairs (pairs : list (pystr * json)) : dict :=
  fold_left (fun d kv => dict_set kv.1 kv.2 d) pairs [].

Module Json.

(** [WHITESPACE]: space, tab, line feed, carriage return. *)
Definition is_ws (c : N) : bool :=
  (c =? 32)%N || (c =? 9)%N || (c =? 10)%N || (c =? 13)%N.

Fixpoint skip_ws (s : pystr) : pystr :=
  match s with
  | c :: s' => if is_ws c then skip_ws s' else s
  | [] => []
  end.

Definition is_digit (c : N) : bool := (48 <=? c)%N && (c <=? 57)%N.

Definition hex_val (c : N) : option N :=
  if is_digit c then Some (c - 48)%N
  else if (97 <=? c)%N && (c <=? 102)%N then Some (c - 87)%N
  else if (65 <=? c)%N && (c <=? 70)%N then Some (c - 55)%N
  else None.

(** [_decode_uXXXX]: four hexadecimal digits. *)
Definition decode_uXXXX (h1 h2 h3 h4 : N) : option N :=
  a ← hex_val h1; b ← hex_val h2; c ← hex_val h3; d ← hex_val h4;
  Some (((a * 16 + b) * 16 + c) * 16 + d)%N.

(** [BACKSLASH] *)
Definition backslash_char (esc : N) : option N :=
  if (esc =? c_quote)%N then Some c_quote
  else if (esc =? c_backslash)%N then Some c_backslash
  else if (esc =? ch "/")%N then Some (ch "/")
  else if (esc =? ch "b")%N then Some 8%N
  else if (esc =? ch "f")%N then Some 12%N
  else if (esc =? ch "n")%N then Some 10%N
  else if (esc =? ch "r")%N then Some 13%N
  else if (esc =? ch "t")%N then Some 9%N
  else None.

Definition is_high_surrogate (c : N) : bool := (55296 <=? c)%N && (c <=? 56319)%N.
Definition is_low_surrogate (c : N) : bool := (56320 <=? c)%N && (c <=? 57343)%N.
Definition join_surrogates (hi lo : N) : N :=
  (65536 + N.lor (N.shiftl (hi - 55296) 10) (lo - 56320))%N.

Definition cons_char (c : N) (r : option (pystr * pystr)) : option (pystr * pystr) :=
  '(cs, rest) ← r; Some (c :: cs, rest).

(** [scanstring], strict, from just after the opening quote: the decoded
    string and what follows the closing quote. *)
Fixpoint scanstring (s : pystr) : option (pystr * pystr) :=
  match s with
  | [] => None
  | c :: s1 =>
      if (c =? c_quote)%N then Some ([], s1)
      else if (c =? c_backslash)%N then
        match s1 with
        | [] => None
        | esc :: s2 =>
            if (esc =? ch "u")%N then
              match s2 with
              | h1 :: h2 :: h3 :: h4 :: s3 =>
                  uni ← decode_uXXXX h1 h2 h3 h4;
                  match s3 with
                  | b :: u :: k1 :: k2 :: k3 :: k4 :: s4 =>
                      if is_high_surrogate uni && (b =? c_backslash)%N && (u =? ch "u")%N then
                        uni2 ← decode_uXXXX k1 k2 k3 k4;
                        if is_low_surrogate uni2
                        then cons_char (join_surrogates uni uni2) (scanstring s4)
                        else cons_char uni (scanstring s3)
                      else cons_char uni (scanstring s3)
                  | _ => cons_char uni (scanstring s3)
                  end
              | _ => None
              end
            else
              char ← backslash_char esc;
              cons_char char (scanstring s2)
        end
      else if (c <? 32)%N then None
      else cons_char c (scanstring s1)
  end.

(** The longest run of decimal digits at the head of [s]. *)
Fixpoint span_digits (s : pystr) : pystr * pystr :=
  match s with
  | c :: s' =>
      if is_digit c then let '(ds, rest) := span_digits s' in (c :: ds, rest)
      else ([], s)
  | [] => ([], [])
  end.

(** [int(digits)] for a run of decimal digits. *)
Definition int_of_digits (ds : pystr) : Z :=
  fold_left (fun acc c => acc * 10 + Z.of_N (c - 48)) ds 0.

(** Either 0 or a run of digits that does not start with 0: the digits
    and the rest. *)
Definition match_digits (s : pystr) : option (pystr * pystr) :=
  match s with
  | c :: s2 =>
      if (c =? ch "0")%N then Some ([c], s2)
      else if is_digit c then
        let '(ds, s3) := span_digits s2 in Some (c :: ds, s3)
      else None
  | [] => None
  end.

(** The integer group of [NUMBER_RE], an optional minus and
    [match_digits]: sign, digits, rest. *)
Definition match_integer (s : pystr) : option (bool * pystr * pystr) :=
  match s with
  | c :: s' =>
      if (c =? ch "-")%N
      then '(ds, rest) ← match_digits s'; Some (true, ds, rest)
      else '(ds, rest) ← match_digits s; Some (false, ds, rest)
  | [] => None
  end.

(** The fraction group of [NUMBER_RE]: a dot and at least one digit. *)
Definition match_frac (s : pystr) : pystr * pystr :=
  match s with
  | dot :: d :: s' =>
      if (dot =? ch ".")%N && is_digit d then
        let '(ds, rest) := span_digits (d :: s') in (dot :: ds, rest)
      else ([], s)
  | _ => ([], s)
  end.

(** The exponent group of [NUMBER_RE]: e or E, an optional sign, at
    least one digit. *)
Definition match_exp (s : pystr) : pystr * pystr :=
  match s with
  | e :: s1 =>
      if (e =? ch "e")%N || (e =? ch "E")%N then
        let '(sign, s2) :=
          match s1 with
          | c :: s' => if (c =? ch "-")%N || (c =? ch "+")%N then ([c], s') else ([], s1)
          | [] => ([], s1)
          end in
        match span_digits s2 with
        | ([], _) => ([], s)
        | (ds, rest) => (e :: sign ++ ds, rest)
        end
      else ([], s)
  | [] => ([], s)
  end.

(** [NUMBER_RE.match] and the conversion of its groups. *)
Definition match_number (s : pystr) : option (json * pystr) :=
  '(neg, digits, s1) ← match_integer s;
  let '(frac, s2) := match_frac s1 in
  let '(exp, s3) := match_exp s2 in
  let integer := (if neg : bool then [ch "-"] else []) ++ digits in
  match frac, exp with
  | [], [] => Some (JInt (if neg then - int_of_digits digits else int_of_digits digits), s3)
  | _, _ => Some (JFloat (integer ++ frac ++ exp), s3)
  end.

(** A constant of the scanner: [string[idx:idx + n] == word]. *)
Definition match_word (word : string) (v : json) (s : pystr) : option (json * pystr) :=
  if starts_with (py word) s then Some (v, drop (length (py word)) s) else None.

(** What the scanner tries once strings, objects and arrays are ruled
    out, in its order. *)
Definition scan_atom (s : pystr) : option (json * pystr) :=
  match match_word "null" JNull s with Some r => Some r | None =>
  match match_word "true" (JBool true) s with Some r => Some r | None =>
  match match_word "false" (JBool false) s with Some r => Some r | None =>
  match match_number s with Some r => Some r | None =>
  match match_word "NaN" (JFloat (py "NaN")) s with Some r => Some r | None =>
  match match_word "Infinity" (JFloat (py "Infinity")) s with Some r => Some r | None =>
  match_word "-Infinity" (JFloat (py "-Infinity")) s
  end end end end end end.

(** [scan_once], [JSONObject] and [JSONArray]. [fuel] bounds the calls;
    [parse_members] starts just after the opening quote of a key,
    [parse_elements] at the first character of an element. *)
Fixpoint scan_once (fuel : nat) (s : pystr) : option (json * pystr) :=
  match fuel with
  | O => None
  | S fuel' =>
      match s with
      | [] => None
      | c :: s1 =>
          if (c =? c_quote)%N then
            '(str, rest) ← scanstring s1; Some (JStr str, rest)
          else if (c =? ch "{")%N then
            match skip_ws s1 with
            | c2 :: s2 =>
                if (c2 =? ch "}")%N then Some (JDict [], s2)
                else if (c2 =? c_quote)%N then
                  '(pairs, rest) ← parse_members fuel' s2;
                  Some (JDict (dict_of_pairs pairs), rest)
                else None
            | [] => None
            end
          else if (c =? ch "[")%N then
            match skip_ws s1 with
            | c2 :: s2 =>
                if (c2 =? ch "]")%N then Some (JList [], s2)
                else
                  '(values, rest) ← parse_elements fuel' (c2 :: s2);
                  Some (JList values, rest)
            | [] => None
            end
          else scan_atom s
      end
  end
with parse_members (fuel : nat) (s : pystr) : option (list (pystr * json) * pystr) :=
  match fuel with
  | O => None
  | S fuel' =>
      '(key, s1) ← scanstring s;
      match skip_ws s1 with
      | colon :: s2 =>
          if (colon =? ch ":")%N then
            '(value, s3) ← scan_once fuel' (skip_ws s2);
            match skip_ws s3 with
            | c :: s4 =>
                if (c =? ch "}")%N then Some ([(key, value)], s4)
                else if (c =? ch ",")%N then
                  match skip_ws s4 with
                  | q :: s5 =>
                      if (q =? c_quote)%N then
                        '(pairs, rest) ← parse_members fuel' s5;
                        Some ((key, value) :: pairs, rest)
                      else None
                  | [] => None
                  end
                else None
            | [] => None
            end
          else None
      | [] => None
      end
  end
with parse_elements (fuel : nat) (s : pystr) : option (list json * pystr) :=
  match fuel with
  | O => None
  | S fuel' =>
      '(value, s1) ← scan_once fuel' s;
      match skip_ws s1 with
      | c :: s2 =>
          if (c =? ch "]")%N then Some ([value], s2)
          else if (c =? ch ",")%N then
            '(values, rest) ← parse_elements fuel' (skip_ws s2);
            Some (value :: values, rest)
          else None
      | [] => None
      end
  end.

(** [json.loads(s)]; [None] is JSONDecodeError. The nesting limit of the
    interpreter and the limit on the digits of an [int] are not
    modelled. *)
Definition loads (s : pystr) : option json :=
  '(obj, rest) ← scan_once (2 * length s + 2) (skip_ws s);
  match skip_ws rest with
  | [] => Some obj
  | _ :: _ => None
  end.

End Json.

(** ** The two patterns of [extract_json] under [re.search] *)

Module Re.

(** What [\s] matches in a [str] pattern. *)
Definition is_space (c : N) : bool :=
  ((9 <=? c) && (c <=? 13) || (28 <=? c) && (c <=? 32) || (c =? 133) || (c =? 160)
   || (c =? 5760) || (8192 <=? c) && (c <=? 8202) || (c =? 8232) || (c =? 8233)
   || (c =? 8239) || (c =? 8287) || (c =? 12288))%N.

Fixpoint skip_space (s : pystr) : pystr :=
  match s with
  | c :: s' => if is_space c then skip_space s' else s
  | [] => []
  end.

(** [re.search]: the match at the leftmost position that has one. *)
Fixpoint search {A} (match_at : pystr → option A) (s : pystr) : option A :=
  match match_at s with
  | Some m => Some m
  | None =>
      match s with
      | [] => None
      | _ :: s' => search match_at s'
      end
  end.

Definition fence : pystr := py "```".

(** The lazy run of any characters, the closing brace, spaces and the
    closing fence, from just after the opening brace: the characters up to
    and with the closing brace. The shortest run is taken. *)
Fixpoint lazy_body (s : pystr) : option pystr :=
  match s with
  | [] => None
  | c :: s' =>
      if (c =? ch "}")%N && starts_with fence (skip_space s') then Some [c]
      else cons c <$> lazy_body s'
  end.

(** Spaces, then the group: an opening brace and [lazy_body]. *)
Definition block_group (s : pystr) : option pystr :=
  match skip_space s with
  | c :: s' => if (c =? ch "{")%N then cons c <$> lazy_body s' else None
  | [] => None
  end.

(** The code block pattern at the head of [s]: the fence, an optional
    [json] tag (taken first, given up if the rest then fails), and
    [block_group]. The result is [match.group(1)]. *)
Definition match_code_block (s : pystr) : option pystr :=
  if starts_with fence s then
    let s1 := drop 3 s in
    match (if starts_with (py "json") s1 then block_group (drop 4 s1) else None) with
    | Some g => Some g
    | None => block_group s1
    end
  else None.

(** The greedy run of any characters and a closing brace: the longest
    run is taken. *)
Fixpoint greedy_body (s : pystr) : option pystr :=
  match s with
  | [] => None
  | c :: s' =>
      match greedy_body s' with
      | Some m => Some (c :: m)
      | None => if (c =? ch "}")%N then Some [c] else None
      end
  end.

(** The raw pattern at the head of [s]: an opening brace and
    [greedy_body]. The result is [match.group(0)]. *)
Definition match_raw (s : pystr) : option pystr :=
  match s with
  | c :: s' => if (c =? ch "{")%N then cons c <$> greedy_body s' else None
  | [] => None
  end.

End Re.

(** [re.search(...)] and [json.loads] of the group, when both succeed. *)
Definition try_code_block (text : pystr) : option json :=
  m ← Re.search Re.match_code_block text; Json.loads m.

Definition try_raw (text : pystr) : option json :=
  m ← Re.search Re.match_raw text; Json.loads m.

(** ** The calls of the Gemini API, and Python's operations on the values
    of [json.loads] *)

(** What [client.models.generate_content(...)] does, as far as the code
    reads it: it returns a response whose [text] is the [str] [text], or
    it raises an exception [e] with [str(e) = message]. *)
Inductive response :=
  | Text (text : pystr)
  | Raises (message : pystr).

(** The exponent group of a float literal as an [int]; 0 when the group
    is empty. *)
Definition exponent_value (exp : pystr) : Z :=
  match exp with
  | _ :: c :: ds =>
      if (c =? ch "-")%N then - Json.int_of_digits ds
      else if (c =? ch "+")%N then Json.int_of_digits ds
      else Json.int_of_digits (c :: ds)
  | _ => 0
  end.

(** The number a float literal denotes, before it is rounded to a
    binary64; [None] for NaN, Infinity and -Infinity. *)
Definition decimal_value (literal : pystr) : option Q :=
  '(neg, digits, s1) ← Json.match_integer literal;
  let '(frac, s2) := Json.match_frac s1 in
  let '(exp, _) := Json.match_exp s2 in
  let frac_digits := drop 1 frac in
  let mantissa := Json.int_of_digits (digits ++ frac_digits) in
  let v := (inject_Z mantissa *
            10 ^ (exponent_value exp - Z.of_nat (length frac_digits)))%Q in
  Some (if neg : bool then (- v)%Q else v).

(** [float(literal) == 0.0]: the literal denotes a number that rounds to
    zero, which is one of magnitude at most 2^-1075, half of the least
    positive binary64. *)
Definition float_is_zero (literal : pystr) : bool :=
  match decimal_value literal with
  | Some v => Qle_bool (Qabs v) (2 ^ (-1075))%Q
  | None => false
  end.

(** The truth value of a value: [bool(v)]. *)
Definition json_truthy (v : json) : bool :=
  match v with
  | JNull => false
  | JBool b => b
  | JInt z => negb (z =? 0)
  | JFloat literal => negb (float_is_zero literal)
  | JStr s => match s with [] => false | _ :: _ => true end
  | JList l => match l with [] => false | _ :: _ => true end
  | JDict d => match d with [] => false | _ :: _ => true end
  end.

(** [x or dflt] *)
Definition py_or (x dflt : json) : json :=
  if json_truthy x then x else dflt.

(** [d.get(key)], where Python's [None] is [JNull]. *)
Definition py_get (key : string) (d : dict) : json :=
  default JNull (dict_get (py key) d).

(** [v == s] for a [str] [s]. *)
Definition eq_str (v : json) (s : pystr) : bool :=
  match v with
  | JStr s' => bool_decide (s' = s)
  | _ => false
  end.

(** [p in s] for two [str]: [p] occurs in [s]. *)
Fixpoint is_substring (p s : pystr) : bool :=
  starts_with p s ||
  match s with
  | [] => false
  | _ :: s' => is_substring p s'
  end.

(** [key in v] for a [str] [key]: a key of a dict, an element of a list,
    a substring of a str; [None] is the TypeError on a value that is not
    iterable. *)
Definition py_in (key : pystr) (v : json) : option bool :=
  match v with
  | JDict d => Some (bool_decide (is_Some (dict_get key d)))
  | JList l => Some (existsb (fun x => eq_str x key) l)
  | JStr s => Some (is_substring key s)
  | _ => None
  end.

(** [v[key] = x] for a [str] [key]; [None] is the TypeError on a value
    that is not a dict. *)
Definition py_setitem (key : pystr) (x : json) (v : json) : option json :=
  match v with
  | JDict d => Some (JDict (dict_set key x d))
  | _ => None
  end.

(** [str(e)] for the TypeError of [v[key] = x] with a [str] [key]. *)
Definition setitem_error (v : json) : pystr :=
  match v with
  | JNull => py "'NoneType' object does not support item assignment"
  | JBool _ => py "'bool' object does not support item assignment"
  | JInt _ => py "'int' object does not support item assignment"
  | JFloat _ => py "'float' object does not support item assignment"
  | JStr _ => py "'str' object does not support item assignment"
  | JList _ => py "list indices must be integers or slices, not str"
  | JDict _ => []
  end.

Definition as_dict (v : json) : option dict :=
  match v with JDict d => Some d | _ => None end.

(** [sorted(l, key=key, reverse=True)]: descending keys, and entries with
    equal keys in the order they have in [l] (the sort is stable, also
    when reversed). *)
Fixpoint insert_reverse {A} (key : A → Z) (x : A) (sorted : list A) : list A :=
  match sorted with
  | [] => [x]
  | y :: sorted' =>
      if key y <=? key x then x :: sorted
      else y :: insert_reverse key x sorted'
  end.

Definition py_sorted_reverse {A} (key : A → Z) (l : list A) : list A :=
  foldr (insert_reverse key) [] l.

(** [max(l, key=key)]: the first entry with the largest key; [None] is
    the ValueError on an empty list. *)
Definition py_max_key {A} (key : A → Z) (l : list A) : option A :=
  match l with
  | [] => None
  | x :: xs => Some (fold_left (fun best y => if key best <? key y then y else best) xs x)
  end.

(** ** Python's numbers

    A [float] is a binary64 and its arithmetic is that of IEEE 754,
    rounding to nearest, ties to even: the operations are those of
    [SpecFloat] at precision 53 and exponent bound 1024, on floats in
    the canonical form that these operations and [float_of_literal]
    return. An [int] is exact, of any size. *)

Module Float.

Definition prec : Z := 53.
Definition emax : Z := 1024.

Definition add : spec_float → spec_float → spec_float := SFadd prec emax.
Definition sub : spec_float → spec_float → spec_float := SFsub prec emax.
Definition mul : spec_float → spec_float → spec_float := SFmul prec emax.
Definition div : spec_float → spec_float → spec_float := SFdiv prec emax.

(** The float nearest to an int; an infinity beyond the range. *)
Definition of_Z (z : Z) : spec_float := binary_normalize prec emax z 0 false.

(** The float nearest to the quotient [a / b] of two ints, [b] not 0;
    the sign of a zero is that of the quotient's operands. *)
Definition of_ratio (a b : Z) : spec_float :=
  let negative := xorb (a <? 0) (b <? 0) in
  match a with
  | Z0 => S754_zero negative
  | _ =>
      let '(q, e, l) := SFdiv_core_binary prec emax (Z.abs a) 0 (Z.abs b) 0 in
      binary_round_aux prec emax negative q e l
  end.

Definition is_zero (f : spec_float) : bool :=
  match f with S754_zero _ => true | _ => false end.

Definition is_infinity (f : spec_float) : bool :=
  match f with S754_infinity _ => true | _ => false end.

(** The order of a float and an int, as numbers; [None] for a NaN. *)
Definition compare_Z (f : spec_float) (z : Z) : option comparison :=
  match f with
  | S754_nan => None
  | S754_infinity s => Some (if s then Lt else Gt)
  | S754_zero _ => Some (0 ?= z)
  | S754_finite s m e =>
      let sm := if s then Zneg m else Zpos m in
      Some (if 0 <=? e then sm * 2 ^ e ?= z else sm ?= z * 2 ^ (- e))
  end.

End Float.

(** [float(literal)] for a float literal of JSON: the float nearest to
    the number it denotes, and NaN, Infinity and -Infinity. *)
Definition float_of_literal (literal : pystr) : spec_float :=
  match decimal_value literal with
  | Some q =>
      if (Qnum q =? 0) then S754_zero (starts_with (py "-") literal)
      else Float.of_ratio (Qnum q) (Zpos (Qden q))
  | None =>
      if starts_with (py "N") literal then S754_nan
      else S754_infinity (starts_with (py "-") literal)
  end.

(** An [int] or a [float]. *)
Inductive number :=
  | PInt (z : Z)
  | PFloat (f : spec_float).

(** [float(x)]; [None] is the OverflowError of an int beyond the range
    of the floats. *)
Definition to_float (x : number) : option spec_float :=
  match x with
  | PFloat f => Some f
  | PInt z => let f := Float.of_Z z in if Float.is_infinity f then None else Some f
  end.

(** The comparison of two numbers, which is exact also between an int
    and a float; [None] when one is a NaN. *)
Definition py_compare (x y : number) : option comparison :=
  match x, y with
  | PInt a, PInt b => Some (a ?= b)
  | PFloat f, PFloat g => SFcompare f g
  | PFloat f, PInt b => Float.compare_Z f b
  | PInt a, PFloat g => CompOpp <$> Float.compare_Z g a
  end.

(** [x > y], [x < y], [x <= y] *)
Definition py_gt (x y : number) : bool :=
  match py_compare x y with Some Gt => true | _ => false end.

Definition py_lt (x y : number) : bool :=
  match py_compare x y with Some Lt => true | _ => false end.

Definition py_le (x y : number) : bool :=
  match py_compare x y with Some (Lt | Eq) => true | _ => false end.

(** The arithmetic of two operands: exact on two ints, and on floats
    once an int operand is converted. *)
Definition py_arith (on_int : Z → Z → Z) (on_float : spec_float → spec_float → spec_float)
    (x y : number) : option number :=
  match x, y with
  | PInt a, PInt b => Some (PInt (on_int a b))
  | _, _ => f ← to_float x; g ← to_float y; Some (PFloat (on_float f g))
  end.

(** [x + y], [x - y], [x * y] *)
Definition py_add : number → number → option number := py_arith Z.add Float.add.
Definition py_sub : number → number → option number := py_arith Z.sub Float.sub.
Definition py_mul : number → number → option number := py_arith Z.mul Float.mul.

(** [x / y]: a float, the nearest to the quotient also for two ints.
    [None] is the ZeroDivisionError of a zero divisor, or the
    OverflowError of an int operand or of a quotient of ints beyond the
    range of the floats. *)
Definition py_truediv (x y : number) : option number :=
  match x, y with
  | PInt a, PInt b =>
      if b =? 0 then None
      else let f := Float.of_ratio a b in
           if Float.is_infinity f then None else Some (PFloat f)
  | _, _ =>
      f ← to_float x; g ← to_float y;
      if Float.is_zero g then None else Some (PFloat (Float.div f g))
  end.

(** [max(l)] and [min(l)]: the first of the largest, of the smallest;
    [None] is the ValueError on an empty list. *)
Definition py_max (l : list number) : option number :=
  match l with
  | [] => None
  | x :: xs => Some (fold_left (fun best y => if py_gt y best then y else best) xs x)
  end.

Definition py_min (l : list number) : option number :=
  match l with
  | [] => None
  | x :: xs => Some (fold_left (fun best y => if py_lt y best then y else best) xs x)
  end.

(** What differs between the versions of the interpreter: the builtin
    [sum] adds the items from left to right up to CPython 3.11, and from
    3.12 on it also compensates the rounding errors of the additions of
    floats. *)
Class Interpreter := {
  builtin_sum : list number → option number;
}.

(** [sum(l)] up to CPython 3.11: [0 + l[0] + l[1] + ...]. *)
Definition sum_left (l : list number) : option number :=
  fold_left (fun total x => total ← total; py_add total x) l (Some (PInt 0)).

#[global] Instance cpython_3_11 : Interpreter := {| builtin_sum := sum_left |}.

(** ** [discovery.py] *)

Module Discovery.

Definition failure (text : pystr) : json :=
  JDict [(py "error", JStr (py "JSON parsing failed"));
         (py "raw_response", JStr (take 500 text))].

(** The strategy that succeeds first, if one does. *)
Definition parsed (text : pystr) : option json :=
  match try_code_block text with
  | Some v => Some v
  | None => try_raw text
  end.

Definition extract_json (text : pystr) : json :=
  match try_code_block text with
  | Some v => v
  | None =>
      match try_raw text with
      | Some v => v
      | None => failure text
      end
  end.

(** *** Collection: [collect_company_intel], [collect_acquirer_intel] and
    [process_acquisitions] *)

(** [r] is what the API call with the discovery prompt does; [domain] and
    [company_name] only feed the prompt. *)
Definition collect_company_intel (r : response) : json :=
  match r with
  | Text text => extract_json text
  | Raises message =>
      JDict [(py "error", JStr message);
             (py "strategic_statements", JList []);
             (py "company_priorities", JList []);
             (py "key_executives", JList []);
             (py "ownership_changes", JList []);
             (py "company_context", JStr []);
             (py "collection_notes", JStr (py "API error: " ++ message))]
  end.

(** The values [ACQUIRER_PROMPT] is formatted with: the request that
    [collect_acquirer_intel] sends. *)
Record acquirer_prompt := AcquirerPrompt {
  acquirer_name : json;
  acquirer_domain : json;
  acquired_company : pystr;
  acquisition_date : json;
}.

(** [client] tells what the API call with a prompt does. The result is
    the returned dict, with the requests sent. *)
Definition collect_acquirer_intel (client : acquirer_prompt → response)
    (acquirer_name acquirer_domain : json) (acquired_company : pystr)
    (acquisition_date : json) : json * list acquirer_prompt :=
  let prompt :=
    AcquirerPrompt acquirer_name (py_or acquirer_domain (JStr (py "unknown")))
      acquired_company (py_or acquisition_date (JStr (py "unknown date"))) in
  (match client prompt with
   | Text text => extract_json text
   | Raises message => JDict [(py "error", JStr message)]
   end, [prompt]).

(** [oc.get("event_type") in ["acquisition", "merger", "pe_investment"]] *)
Definition is_acquisition (oc : dict) : bool :=
  match dict_get (py "event_type") oc with
  | Some (JStr s) =>
      bool_decide (s ∈ [py "acquisition"; py "merger"; py "pe_investment"])
  | _ => false
  end.

(** The outer [None] is an exception ([intel] or a change is not a dict,
    or [ownership_changes] is a true value that is not a list); the
    inner one is the returned [None]. The second component lists the
    requests sent to the API. *)
Definition process_acquisitions (client : acquirer_prompt → response)
    (intel : json) (company_name : pystr)
  : option (option dict * list acquirer_prompt) :=
  intel ← as_dict intel;
  let ownership_changes := default (JList []) (dict_get (py "ownership_changes") intel) in
  if negb (json_truthy ownership_changes) then Some (None, [])
  else
    match ownership_changes with
    | JList l =>
        changes ← mapM as_dict l;
        match List.filter is_acquisition changes with
        | [] => Some (None, [])
        | primary :: _ =>
            let acquirer_name :=
              default (JStr []) (dict_get (py "counterparty_name") primary) in
            if negb (json_truthy acquirer_name) then
              Some (Some [(py "detected", JBool true);
                          (py "acquirer_intel", JNull);
                          (py "note", JStr (py "Acquirer name not found"))], [])
            else
              let '(acquirer_intel, sent) :=
                collect_acquirer_intel client acquirer_name
                  (default (JStr []) (dict_get (py "counterparty_domain") primary))
                  company_name
                  (default (JStr []) (dict_get (py "date") primary)) in
              Some (Some [(py "detected", JBool true);
                          (py "acquirer_name", acquirer_name);
                          (py "acquirer_domain", py_get "counterparty_domain" primary);
                          (py "acquisition_date", py_get "date" primary);
                          (py "details", py_get "details" primary);
                          (py "acquirer_intel", acquirer_intel)], sent)
        end
    | _ => None
    end.

(** *** The statements of the text report: [sorted_stmts[:10]] in
    [format_text], where [relevance] is
    [x.get("outreach_relevance", 0)]. *)
Definition shown_statements {A} (relevance : A → Z) (statements : list A) : list A :=
  take 10 (py_sorted_reverse relevance statements).

End Discovery.

(** ** [deep_analysis.py] *)

Module DeepAnalysis.

Definition failure (text : pystr) : json :=
  JDict [(py "parse_error", JBool true);
         (py "raw_text", JStr (take 2000 text));
         (py "executives_found", JList []);
         (py "strategic_insights", JList [])].

Definition parsed (text : pystr) : option json :=
  match Json.loads text with
  | Some v => Some v
  | None =>
      match try_code_block text with
      | Some v => Some v
      | None => try_raw text
      end
  end.

Definition extract_json (text : pystr) : json :=
  match Json.loads text with
  | Some v => v
  | None =>
      match try_code_block text with
      | Some v => v
      | None =>
          match try_raw text with
          | Some v => v
          | None => failure text
          end
      end
  end.

(** *** Source router: [get_high_relevance_sources] and the
    categorisation in [main] *)

(** One entry of ["strategic_statements"]; a field is [None] when the key
    is missing. *)
Record stmt := Stmt {
  outreach_relevance : option Z;
  source_url : option pystr;
  source_type : option pystr;
  stmt_source_name : option pystr;
  statement : option pystr;
}.

Record source := Source {
  url : pystr;
  type : pystr;
  relevance : Z;
  source_name : pystr;
  snippet : pystr;
}.

Definition MIN_RELEVANCE_THRESHOLD : Z := 80.

(** The truth value of a [str]. *)
Definition truthy (s : pystr) : bool :=
  match s with [] => false | _ :: _ => true end.

Definition get_high_relevance_sources (statements : list stmt) (threshold : Z)
  : list source :=
  fold_left
    (fun sources st =>
       let relevance := default 0 (outreach_relevance st) in
       let source_url := default [] (source_url st) in
       let source_type := default [] (source_type st) in
       if (threshold <=? relevance) && truthy source_url then
         sources ++ [Source source_url source_type relevance
                       (default [] (stmt_source_name st))
                       (take 200 (default [] (statement st)))]
       else sources)
    statements [].

Definition is_youtube (s : source) : bool :=
  bool_decide (type s = py "youtube").

Definition is_article (s : source) : bool :=
  bool_decide (type s ∈ [py "news"; py "press_release"; py "interview"; py "article"]).

(** [yt_sources], all of which are processed. *)
Definition yt_sources (sources : list source) : list source :=
  List.filter is_youtube sources.

Definition art_sources (sources : list source) : list source :=
  List.filter is_article sources.

(** [art_sources[:5]], the articles that are processed. *)
Definition processed_articles (sources : list source) : list source :=
  take 5 (art_sources sources).

(** *** Aggregator: [merge_deep_intel] *)

(** A result of [process_youtube], as far as [merge_deep_intel] reads it:
    for each category, [None] when the key is absent and the list under
    it otherwise. Pain points are strings. *)
Record yt_result := YtResult {
  yt_executives_found : option (list json);
  yt_strategic_insights : option (list json);
  yt_outreach_angles : option (list json);
  yt_pain_points : option (list pystr);
}.

(** A result of [process_article], likewise. *)
Record art_result := ArtResult {
  art_executive_quotes : option (list json);
}.

(** The lists of [merged] while the loops run. *)
Record lists := Lists {
  l_executives_found : list json;
  l_strategic_insights : list json;
  l_outreach_angles : list json;
  l_key_quotes : list json;
  l_pain_points : list pystr;
}.

(** [if key in src: merged[key].extend(src[key])] *)
Definition extend_if_present {A} (acc : list A) (field : option (list A)) : list A :=
  match field with
  | Some l => acc ++ l
  | None => acc
  end.

(** The body of the loop over [youtube_results]. *)
Definition absorb_youtube (m : lists) (yt : yt_result) : lists :=
  Lists (extend_if_present (l_executives_found m) (yt_executives_found yt))
        (extend_if_present (l_strategic_insights m) (yt_strategic_insights yt))
        (extend_if_present (l_outreach_angles m) (yt_outreach_angles yt))
        (l_key_quotes m)
        (extend_if_present (l_pain_points m) (yt_pain_points yt)).

(** The body of the loop over [article_results]. *)
Definition absorb_article (m : lists) (art : art_result) : lists :=
  Lists (l_executives_found m) (l_strategic_insights m) (l_outreach_angles m)
        (extend_if_present (l_key_quotes m) (art_executive_quotes art))
        (l_pain_points m).

(** The returned dict. [pain_points] is [list(set(...))]: the order in
    which Python lists the elements of the set is not modelled, the field
    is the set. *)
Record merged := Merged {
  company_name : pystr;
  domain : pystr;
  processed_at : pystr;
  youtube_intel : list yt_result;
  article_intel : list art_result;
  executives_found : list json;
  strategic_insights : list json;
  outreach_angles : list json;
  key_quotes : list json;
  pain_points : gset pystr;
}.

(** [now] is what [datetime.now().isoformat()] returns when the function
    runs. *)
Definition merge_deep_intel (now : pystr) (company_name domain : pystr)
    (youtube_results : list yt_result) (article_results : list art_result) : merged :=
  let m0 := Lists [] [] [] [] [] in
  let m1 := fold_left absorb_youtube youtube_results m0 in
  let m2 := fold_left absorb_article article_results m1 in
  Merged company_name domain now youtube_results article_results
    (l_executives_found m2) (l_strategic_insights m2) (l_outreach_angles m2)
    (l_key_quotes m2) (list_to_set (l_pain_points m2)).

(** *** From a result dict to what [merge_deep_intel] reads of it *)

(** The list under [key]: [Some None] when the key is absent, [None] when
    the value is not a list. *)
Definition list_field (key : string) (d : dict) : option (option (list json)) :=
  match dict_get (py key) d with
  | None => Some None
  | Some (JList l) => Some (Some l)
  | Some _ => None
  end.

Definition as_str (v : json) : option pystr :=
  match v with JStr s => Some s | _ => None end.

Definition str_list_field (key : string) (d : dict) : option (option (list pystr)) :=
  field ← list_field key d;
  match field with
  | None => Some None
  | Some l => Some <$> mapM as_str l
  end.

Definition yt_view (d : dict) : option yt_result :=
  e ← list_field "executives_found" d;
  s ← list_field "strategic_insights" d;
  o ← list_field "outreach_angles" d;
  p ← str_list_field "pain_points" d;
  Some (YtResult e s o p).

Definition art_view (d : dict) : option art_result :=
  ArtResult <$> list_field "executive_quotes" d.

(** [result = extract_json(response.text); result["source_url"] = url;
    result["source_type"] = ...]: [None] when [result] is not a dict and
    the assignment raises. *)
Definition tag_result (result : json) (url : pystr) (source_type : string) : option dict :=
  match result with
  | JDict d => Some (dict_set (py "source_type") (JStr (py source_type))
                       (dict_set (py "source_url") (JStr url) d))
  | _ => None
  end.

(** What [process_youtube] returns for the response text [text], as
    [merge_deep_intel] reads it. When the assignment raises, the [except]
    branch returns a dict with none of the category keys. [None]: a
    category of the response holds something other than a list (of
    strings, for pain points). *)
Definition youtube_result (text url : pystr) : option yt_result :=
  match tag_result (extract_json text) url "youtube" with
  | Some d => yt_view d
  | None => Some (YtResult None None None None)
  end.

(** What [process_article] returns, likewise. *)
Definition article_result (text url : pystr) : option art_result :=
  match tag_result (extract_json text) url "article" with
  | Some d => art_view d
  | None => Some (ArtResult None)
  end.

(** *** Deep processing: [process_youtube] and [process_article] *)

(** The dict of the [except] branch. *)
Definition error_result (message url : pystr) (source_type : string) : dict :=
  [(py "error", JStr message);
   (py "source_url", JStr url);
   (py "source_type", JStr (py source_type))].

(** [r] is what the API call does; [company_name] only feeds the prompt of
    [process_article], and nothing in [process_youtube]. *)
Definition process_youtube (r : response) (url : pystr) : dict :=
  match r with
  | Text text =>
      let result := extract_json text in
      match tag_result result url "youtube" with
      | Some result' => result'
      | None => error_result (setitem_error result) url "youtube"
      end
  | Raises message => error_result message url "youtube"
  end.

Definition process_article (r : response) (url : pystr) : dict :=
  match r with
  | Text text =>
      let result := extract_json text in
      match tag_result result url "article" with
      | Some result' => result'
      | None => error_result (setitem_error result) url "article"
      end
  | Raises message => error_result message url "article"
  end.

End DeepAnalysis.

(** ** [revenue.py] *)

Module Revenue.

Definition failure (text : pystr) : json :=
  JDict [(py "parse_error", JBool true);
         (py "raw_text", JStr (take 2000 text));
         (py "revenue_estimates", JList []);
         (py "ownership", JDict [(py "type", JStr (py "unknown"))]);
         (py "research_quality",
          JDict [(py "sources_found", JInt 0);
                 (py "red_flags", JList [JStr (py "json_parse_error")])])].

Definition parsed (text : pystr) : option json :=
  match Json.loads text with
  | Some v => Some v
  | None =>
      match try_code_block text with
      | Some v => Some v
      | None => try_raw text
      end
  end.

Definition extract_json (text : pystr) : json :=
  match Json.loads text with
  | Some v => v
  | None =>
      match try_code_block text with
      | Some v => v
      | None =>
          match try_raw text with
          | Some v => v
          | None => failure text
          end
      end
  end.

(** *** Confidence scorer: [calculate_confidence] *)

Inductive confidence :=
  | INSUFFICIENT | LOW | MODERATE | MODERATE_HIGH | HIGH.

#[global] Instance confidence_eq_dec : EqDecision confidence.
Proof. solve_decision. Defined.

(** The position of a level in the ordered enum
    INSUFFICIENT < LOW < MODERATE < MODERATE-HIGH < HIGH. *)
Definition rank (c : confidence) : Z :=
  match c with
  | INSUFFICIENT => 0 | LOW => 1 | MODERATE => 2 | MODERATE_HIGH => 3 | HIGH => 4
  end.

(** One entry of ["revenue_estimates"]; a field is [None] when the key is
    missing from the entry. A credibility score is an [int], an amount an
    [int] or a [float]. *)
Record estimate := Estimate {
  credibility_score : option Z;
  amount_millions : option number;
}.

(** ["research_quality"] *)
Record quality := Quality {
  red_flags : option (list pystr);
}.

(** The [data] dict read by [calculate_confidence]. *)
Record data := Data {
  revenue_estimates : option (list estimate);
  research_quality : option quality;
}.

(** [d.get(key, dflt)] is [default dflt field]. *)

(** [max(...)] over a non-empty sequence of ints; [None] is the
    ValueError Python raises on an empty one. *)
Definition py_max_Z (l : list Z) : option Z :=
  match l with
  | [] => None
  | x :: xs => Some (fold_left Z.max xs x)
  end.

(** [[e.get("amount_millions", 0) for e in estimates
      if e.get("amount_millions", 0) > 0]] *)
Definition positive_amounts (estimates : list estimate) : list number :=
  List.map (fun e => default (PInt 0) (amount_millions e))
    (List.filter (fun e => py_gt (default (PInt 0) (amount_millions e)) (PInt 0)) estimates).

(** Lines 209-213: the spread of the positive amounts, in percent of
    their mean. [None]: an operation of line 211 raises. *)
Definition variance_pct `{Interpreter} (estimates : list estimate) : option number :=
  let amounts := positive_amounts estimates in
  if (2 <=? length amounts)%nat then
    hi ← py_max amounts;
    lo ← py_min amounts;
    spread ← py_sub hi lo;
    total ← builtin_sum amounts;
    mean ← py_truediv total (PInt (Z.of_nat (length amounts)));
    quotient ← py_truediv spread mean;
    py_mul quotient (PInt 100)
  else Some (PInt 0).

(** [best_credibility] *)
Definition best_credibility (estimates : list estimate) : option Z :=
  py_max_Z (List.map (fun e => default 0 (credibility_score e)) estimates).

(** Lines 219-231: the 5-tier table, as the chain of [if]/[elif]. *)
Definition base_confidence (best : Z) (source_count : nat) (variance : number) : confidence :=
  if (80 <=? best) && (2 <=? source_count)%nat && py_le variance (PInt 20) then HIGH
  else if (70 <=? best) && (2 <=? source_count)%nat && py_le variance (PInt 40) then MODERATE_HIGH
  else if (80 <=? best) && (source_count =? 1)%nat then MODERATE_HIGH
  else if (50 <=? best) && (2 <=? source_count)%nat then MODERATE
  else if (60 <=? best) && (source_count =? 1)%nat then MODERATE
  else LOW.

Definition flagged (flag : string) (flags : list pystr) : bool :=
  bool_decide (py flag ∈ flags).

Definition has_high_variance (variance : number) (flags : list pystr) : bool :=
  py_gt variance (PInt 300) || flagged "high_variance" flags.

Definition has_stale_data (flags : list pystr) : bool :=
  flagged "stale_data" flags.

(** Lines 233-234. *)
Definition variance_pass (high_variance : bool) (c : confidence) : confidence :=
  if high_variance && bool_decide (c ∈ [HIGH; MODERATE_HIGH]) then MODERATE else c.

Definition levels : list confidence :=
  [INSUFFICIENT; LOW; MODERATE; MODERATE_HIGH; HIGH].

(** [levels.index(c)]; [None] is ValueError. *)
Fixpoint index (c : confidence) (l : list confidence) : option Z :=
  match l with
  | [] => None
  | x :: l' => if decide (x = c) then Some 0 else Z.succ <$> index c l'
  end.

(** Lines 235-238. *)
Definition stale_pass (stale : bool) (c : confidence) : option confidence :=
  if stale && bool_decide (c ≠ INSUFFICIENT) then
    idx ← index c levels;
    levels !! Z.to_nat (Z.max 0 (idx - 1))
  else Some c.

Definition estimates_of (d : data) : list estimate :=
  default [] (revenue_estimates d).

Definition flags_of (d : data) : list pystr :=
  default [] (red_flags (default (Quality None) (research_quality d))).

(** The level held by [confidence] when line 233 is reached (the base
    level), for a non-empty list of estimates. *)
Definition base_level `{Interpreter} (d : data) : option confidence :=
  best ← best_credibility (estimates_of d);
  variance ← variance_pct (estimates_of d);
  Some (base_confidence best (length (estimates_of d)) variance).

(** The level held by [confidence] when line 235 is reached. *)
Definition confidence_before_stale `{Interpreter} (d : data) : option confidence :=
  best ← best_credibility (estimates_of d);
  variance ← variance_pct (estimates_of d);
  Some (variance_pass (has_high_variance variance (flags_of d))
          (base_confidence best (length (estimates_of d)) variance)).

Definition calculate_confidence `{Interpreter} (d : data) : option confidence :=
  let estimates := estimates_of d in
  let flags := flags_of d in
  match estimates with
  | [] => Some INSUFFICIENT
  | _ :: _ =>
      best ← best_credibility estimates;
      variance ← variance_pct estimates;
      let confidence0 := base_confidence best (length estimates) variance in
      let confidence1 := variance_pass (has_high_variance variance flags) confidence0 in
      stale_pass (has_stale_data flags) confidence1
  end.

(** *** [research_revenue] *)

(** [if key not in result: result[key] = value] *)
Definition set_if_absent (key : string) (value : pystr) (result : json) : option json :=
  present ← py_in (py key) result;
  if present : bool then Some result else py_setitem (py key) (JStr value) result.

(** [r] is what the API call does. [None]: an exception leaves the
    function (that of the API call, or the TypeError of a result that is
    not a dict). *)
Definition research_revenue (r : response) (domain company_name : pystr) : option json :=
  match r with
  | Raises _ => None
  | Text text =>
      let result := extract_json text in
      result ← set_if_absent "domain" domain result;
      set_if_absent "company_name" company_name result
  end.

(** *** [calculate_confidence] on the dict itself *)

(** An entry of ["revenue_estimates"] as the scorer reads it. [None]: the
    entry is not a dict, or a comparison of line 205 or 209 raises on
    what it holds, or its credibility score is not an [int] (a float
    score is outside what [estimate] covers). *)
Definition estimate_view (v : json) : option estimate :=
  e ← as_dict v;
  credibility ← match dict_get (py "credibility_score") e with
                | None => Some None
                | Some (JInt z) => Some (Some z)
                | Some _ => None
                end;
  amount ← match dict_get (py "amount_millions") e with
           | None => Some None
           | Some (JInt z) => Some (Some (PInt z))
           | Some (JFloat literal) => Some (Some (PFloat (float_of_literal literal)))
           | Some _ => None
           end;
  Some (Estimate credibility amount).

(** ["research_quality"] as the scorer reads it: of the red flags, which
    are only tested for membership of a [str], the strings. *)
Definition quality_view (v : json) : option quality :=
  q ← as_dict v;
  match dict_get (py "red_flags") q with
  | None => Some (Quality None)
  | Some (JList l) =>
      Some (Quality (Some (omap (fun x => match x with JStr s => Some s | _ => None end) l)))
  | Some _ => None
  end.

(** The [data] dict as the scorer reads it. *)
Definition data_view (d : dict) : option data :=
  estimates ← match dict_get (py "revenue_estimates") d with
              | None => Some None
              | Some (JList l) => Some <$> mapM estimate_view l
              | Some _ => None
              end;
  quality ← match dict_get (py "research_quality") d with
            | None => Some None
            | Some v => Some <$> quality_view v
            end;
  Some (Data estimates quality).

(** Line 203 returns before anything else of the dict is read; past it
    the dict is read through [data_view]. [None]: an exception, or a
    dict that [data_view] does not cover. *)
Definition calculate_confidence_json `{Interpreter} (d : dict) : option confidence :=
  let estimates := default (JList []) (dict_get (py "revenue_estimates") d) in
  if negb (json_truthy estimates) then Some INSUFFICIENT
  else data ← data_view d; calculate_confidence data.

(** *** The estimates of the text report: [sorted_est] and the
    recommended [best], where [credibility] is
    [x.get("credibility_score", 0)]. *)
Definition sorted_est {A} (credibility : A → Z) (estimates : list A) : list A :=
  py_sorted_reverse credibility estimates.

Definition best {A} (credibility : A → Z) (estimates : list A) : option A :=
  py_max_key credibility estimates.

End Revenue.

(** ** The scorer of the specification

    Section 4.4, steps 3 and 4, in the words of the specification. The
    spread: the positive amounts, and over two or more of them the
    largest minus the smallest, by their mean, times 100, in Python's
    arithmetic. The rule table: an ordered list of guards, each with the
    level it selects; the first guard that holds wins and [LOW] is
    selected when none does. An amount is positive, and a spread is at
    most 20 or 40, as a number: by the order of the rationals. *)

Module Spec.
Import Revenue.

(** The rational number that an int or a finite float is; none for an
    infinity and for a NaN. *)
Definition value (x : number) : option Q :=
  match x with
  | PInt z => Some (inject_Z z)
  | PFloat (S754_zero _) => Some 0%Q
  | PFloat (S754_finite s m e) => Some (inject_Z (if s then Zneg m else Zpos m) * 2 ^ e)%Q
  | PFloat _ => None
  end.

(** [x ≤ bound] and [x > bound] as numbers: minus infinity is at most
    every bound, plus infinity is above every bound, and a NaN is
    neither at most nor above a bound. *)
Definition at_most (x : number) (bound : Z) : Prop :=
  match value x with
  | Some q => (q <= inject_Z bound)%Q
  | None => x = PFloat (S754_infinity true)
  end.

Definition above (x : number) (bound : Z) : Prop :=
  match value x with
  | Some q => (inject_Z bound < q)%Q
  | None => x = PFloat (S754_infinity false)
  end.

#[global] Instance spec_float_eq_dec : EqDecision spec_float.
Proof. solve_decision. Defined.

#[global] Instance number_eq_dec : EqDecision number.
Proof. solve_decision. Defined.

#[global] Instance above_dec x bound : Decision (above x bound).
Proof. unfold above. destruct (value x); [unfold Qlt|]; apply _. Defined.

Definition amount (e : estimate) : number := default (PInt 0) (amount_millions e).

Definition positive_amounts (estimates : list estimate) : list number :=
  List.filter (fun a => bool_decide (above a 0)) (List.map amount estimates).

Definition mean `{Interpreter} (l : list number) : option number :=
  total ← builtin_sum l; py_truediv total (PInt (Z.of_nat (length l))).

Definition variance_pct `{Interpreter} (estimates : list estimate) : option number :=
  let amounts := positive_amounts estimates in
  if decide (2 ≤ length amounts)%nat then
    largest ← py_max amounts;
    smallest ← py_min amounts;
    spread ← py_sub largest smallest;
    m ← mean amounts;
    ratio ← py_truediv spread m;
    py_mul ratio (PInt 100)
  else Some (PInt 0).

Fixpoint first_match (rules : list (Prop * confidence)) (otherwise c : confidence) : Prop :=
  match rules with
  | [] => c = otherwise
  | (guard, level) :: rules' =>
      (guard ∧ c = level) ∨ (¬ guard ∧ first_match rules' otherwise c)
  end.

Definition rule_table (best : Z) (count : nat) (variance_pct : number)
  : list (Prop * confidence) :=
  [ (80 ≤ best ∧ (2 ≤ count)%nat ∧ at_most variance_pct 20, HIGH);
    (70 ≤ best ∧ (2 ≤ count)%nat ∧ at_most variance_pct 40, MODERATE_HIGH);
    (80 ≤ best ∧ count = 1%nat, MODERATE_HIGH);
    (50 ≤ best ∧ (2 ≤ count)%nat, MODERATE);
    (60 ≤ best ∧ count = 1%nat, MODERATE) ].

End Spec.

(** ** Terms the properties are stated with *)

(** *** What may follow a number, and what it means for a scan to depend
    on the consumed characters only *)

Section ScanTerms.
Import Json.

(** The next character does not continue a number. *)
Definition no_digit (r : pystr) : Prop :=
  match r with [] => True | x :: _ => is_digit x = false end.

Definition stops (r : pystr) : Prop :=
  match r with
  | [] => True
  | x :: _ => is_digit x = false ∧ (x =? ch ".")%N = false ∧
              (x =? ch "e")%N = false ∧ (x =? ch "E")%N = false
  end.

Definition no_dot (r : pystr) : Prop :=
  match r with [] => True | x :: _ => (x =? ch ".")%N = false end.

Definition no_e (r : pystr) : Prop :=
  match r with
  | [] => True
  | x :: _ => (x =? ch "e")%N = false ∧ (x =? ch "E")%N = false
  end.

Definition value_local (f : nat) : Prop :=
  ∀ s v rest, scan_once f s = Some (v, rest) →
  ∃ c, s = c ++ rest ∧ c ≠ [] ∧
    (∀ d, v = JDict d → head c = Some (ch "{") ∧ last c = Some (ch "}")) ∧
    ∀ f' r, (2 * length c ≤ f')%nat → stops r → scan_once f' (c ++ r) = Some (v, r).

Definition members_local (f : nat) : Prop :=
  ∀ s pairs rest, parse_members f s = Some (pairs, rest) →
  ∃ c, s = c ++ rest ∧ last c = Some (ch "}") ∧
    ∀ f' r, (2 * length c ≤ f')%nat → parse_members f' (c ++ r) = Some (pairs, r).

Definition elements_local (f : nat) : Prop :=
  ∀ s values rest, parse_elements f s = Some (values, rest) →
  ∃ c, s = c ++ rest ∧ c ≠ [] ∧
    ∀ f' r, (2 * length c ≤ f')%nat → parse_elements f' (c ++ r) = Some (values, r).

End ScanTerms.

(** *** Reading a result dict, and three response texts *)

Section ExtractorTerms.

(** The value under [key] when [v] is a dict that has the key. *)
Definition field (key : string) (v : json) : option json :=
  match v with
  | JDict d => dict_get (py key) d
  | _ => None
  end.

Definition quoted (s : string) : pystr := [c_quote] ++ py s ++ [c_quote].

(** The object with the one key a, whose value is a string that holds a
    fenced empty object. *)
Definition fence_in_string_text : pystr :=
  py "{" ++ quoted "a" ++ py ": " ++ quoted "```{}```" ++ py "}".

(** The object with the one key a and the value 1, after a space. *)
Definition plain_object_text : pystr :=
  py " {" ++ quoted "a" ++ py ": 1}".

(** 600 times the letter x. *)
Definition long_prose_text : pystr := replicate 600 (ch "x").

End ExtractorTerms.

(** *** The router, statement by statement *)

Section RouterTerms.
Import DeepAnalysis.

(** The dict [get_high_relevance_sources] builds from a statement. *)
Definition candidate (st : stmt) : source :=
  Source (default [] (source_url st)) (default [] (source_type st))
    (default 0 (outreach_relevance st)) (default [] (stmt_source_name st))
    (take 200 (default [] (statement st))).

(** The test [relevance >= threshold and source_url]. *)
Definition eligible (threshold : Z) (st : stmt) : bool :=
  (threshold <=? default 0 (outreach_relevance st)) && truthy (default [] (source_url st)).

End RouterTerms.

(** *** The aggregator: contributions, four results, failed sources *)

Section AggregatorTerms.
Import DeepAnalysis.

(** What the sources that have the key bring to a category, in source
    order. *)
Definition contributions {S A} (field : S → option (list A)) (sources : list S) : list A :=
  concat (List.map (fun s => default [] (field s)) sources).

Definition yt_a : yt_result :=
  YtResult (Some [JStr (py "Ann")]) (Some [JStr (py "expansion")])
    (Some [JStr (py "angle a")]) (Some [py "inventory"; py "scaling"]).

Definition yt_b : yt_result :=
  YtResult (Some [JStr (py "Bob")]) (Some [JStr (py "pricing")])
    (Some [JStr (py "angle b")]) (Some [py "scaling"; py "hiring"]).

Definition art_a : art_result := ArtResult (Some [JStr (py "quote a")]).
Definition art_b : art_result := ArtResult (Some [JStr (py "quote b")]).

(** A source that is the failure sentinel of [extract_json], as
    [process_youtube] or [process_article] returns it. *)
Definition failed_youtube (yt : yt_result) : Prop :=
  ∃ text url, parsed text = None ∧ youtube_result text url = Some yt.

Definition failed_article (art : art_result) : Prop :=
  ∃ text url, parsed text = None ∧ article_result text url = Some art.

End AggregatorTerms.

(** *** Four inputs of the scorer *)

Section ScorerTerms.
Import Revenue.

(** The float that a literal of JSON denotes. *)
Definition flt (literal : string) : number := PFloat (float_of_literal (py literal)).

(** One estimate of credibility 10, flagged stale. *)
Definition stale_low_data : data :=
  Data (Some [Estimate (Some 10) None]) (Some (Quality (Some [py "stale_data"]))).

(** One estimate of credibility 90, flagged both high_variance and
    stale_data. *)
Definition both_flags_data : data :=
  Data (Some [Estimate (Some 90) (Some (flt "12.5"))])
       (Some (Quality (Some [py "high_variance"; py "stale_data"]))).

(** Two estimates of credibility 90 and 85 on 10.0 and 10.5, no flag. *)
Definition two_agreeing_data : data :=
  Data (Some [Estimate (Some 90) (Some (flt "10.0")); Estimate (Some 85) (Some (flt "10.5"))])
       (Some (Quality (Some []))).

Definition high_variance_only_data : data :=
  Data (Some [Estimate (Some 90) (Some (flt "12.5"))])
       (Some (Quality (Some [py "high_variance"]))).

(** Two estimates of credibility 90 and 85 on 1.8 and 2.2: the spread is
    a fifth of the mean. *)
Definition fifth_apart_data : data :=
  Data (Some [Estimate (Some 90) (Some (flt "1.8")); Estimate (Some 85) (Some (flt "2.2"))])
       (Some (Quality (Some []))).

(** Three estimates on the ints 100000000000000010, 1 and 1. *)
Definition three_ints_estimates : list estimate :=
  [Estimate (Some 90) (Some (PInt 100000000000000010));
   Estimate (Some 85) (Some (PInt 1)); Estimate (Some 80) (Some (PInt 1))].

(** Two estimates of credibility 90 and 85, both on the int 10^400,
    flagged stale. *)
Definition beyond_floats_data : data :=
  Data (Some [Estimate (Some 90) (Some (PInt (10 ^ 400)));
              Estimate (Some 85) (Some (PInt (10 ^ 400)))])
       (Some (Quality (Some [py "stale_data"]))).

End ScorerTerms.

(** *** More inputs, and characters a text may have to avoid *)

Section ScorerMoreTerms.
Import Revenue.

(** [two_agreeing_data] with the flags all_aggregators and single_source. *)
Definition aggregators_only_data : data :=
  Data (Some [Estimate (Some 90) (Some (flt "10.0")); Estimate (Some 85) (Some (flt "10.5"))])
       (Some (Quality (Some [py "all_aggregators"; py "single_source"]))).

End ScorerMoreTerms.

Section RouterMoreTerms.
Import DeepAnalysis.

(** A YouTube statement of relevance 95 and a news statement of relevance
    85. *)
Definition two_statements : list stmt :=
  [Stmt (Some 95) (Some (py "https://youtube.com/watch?v=1")) (Some (py "youtube"))
     (Some (py "Channel")) (Some (py "We are replatforming."));
   Stmt (Some 85) (Some (py "https://example.com/news")) (Some (py "news"))
     (Some (py "Trade Journal")) (Some (py "Ten new stores are planned."))].

End RouterMoreTerms.

(** The object with the one key a and the value 1, between two line
    feeds. *)
Definition fenced_inner_text : pystr :=
  [10%N] ++ py "{" ++ quoted "a" ++ py ": 1}" ++ [10%N].

(** The code point is not an opening brace, a closing brace, a
    backtick. *)
Definition no_open (x : N) : Prop := (x =? ch "{")%N = false.
Definition no_close (x : N) : Prop := (x =? ch "}")%N = false.
Definition no_tick (x : N) : Prop := (x =? ch "`")%N = false.


(** *** Responses and ownership changes to try the collectors on, and
    what it means for a list to be sorted as the reports sort it *)

Section ProcessTerms.
Import DeepAnalysis.

(** An object that carries tags of its own. *)
Definition tagged_object_text : pystr :=
  py "{" ++ quoted "source_url" ++ py ": " ++ quoted "x" ++ py ", " ++
  quoted "pain_points" ++ py ": []}".

End ProcessTerms.

Section AcquisitionTerms.
Import Discovery.

(** An investment round by a fund, then the acquisition by Globex, then a
    merger. *)
Definition funding_change : dict :=
  [(py "event_type", JStr (py "funding")); (py "counterparty_name", JStr (py "Fund"))].
Definition globex_change : dict :=
  [(py "event_type", JStr (py "acquisition")); (py "counterparty_name", JStr (py "Globex"))].
Definition merger_change : dict :=
  [(py "event_type", JStr (py "merger")); (py "counterparty_name", JStr (py "Initech"))].

Definition three_changes_intel : dict :=
  [(py "ownership_changes",
    JList [JDict funding_change; JDict globex_change; JDict merger_change])].

(** What [process_acquisitions] returns and sends once [primary] is
    chosen. *)
Definition follow_up (client : acquirer_prompt → response) (primary : dict)
    (company_name : pystr) : option dict * list acquirer_prompt :=
  let acquirer_name := default (JStr []) (dict_get (py "counterparty_name") primary) in
  if negb (json_truthy acquirer_name) then
    (Some [(py "detected", JBool true);
           (py "acquirer_intel", JNull);
           (py "note", JStr (py "Acquirer name not found"))], [])
  else
    let '(acquirer_intel, sent) :=
      collect_acquirer_intel client acquirer_name
        (default (JStr []) (dict_get (py "counterparty_domain") primary))
        company_name
        (default (JStr []) (dict_get (py "date") primary)) in
    (Some [(py "detected", JBool true);
           (py "acquirer_name", acquirer_name);
           (py "acquirer_domain", py_get "counterparty_domain" primary);
           (py "acquisition_date", py_get "date" primary);
           (py "details", py_get "details" primary);
           (py "acquirer_intel", acquirer_intel)], sent).

(** A client whose every call fails. *)
Definition failing_client (_ : acquirer_prompt) : response := Raises (py "down").

End AcquisitionTerms.

Section SortTerms.
Context {A : Type} (key : A → Z).

(** No entry comes before one with a larger key. *)
Fixpoint descending (l : list A) : Prop :=
  match l with
  | [] => True
  | x :: l' => Forall (fun y => key y ≤ key x) l' ∧ descending l'
  end.

(** The entries whose key is [k], in their order. *)
Definition with_key (k : Z) (l : list A) : list A :=
  List.filter (fun x => key x =? k) l.

End SortTerms.

(** * Properties *)

(** ** The extractor: what [json.loads] consumes

    A successful scan depends on the characters it consumed only: the
    same characters followed by anything else scan to the same value, as
    long as what follows does not continue a number. *)

Section JsonFacts.
Import Json.

Lemma skip_ws_inv s c t :
  skip_ws s = c :: t →
  ∃ w, s = w ++ c :: t ∧ Forall (fun x => is_ws x = true) w ∧ is_ws c = false.
Proof.
  induction s as [|x s IH]; simpl; [discriminate|].
  destruct (is_ws x) eqn:E.
  - intros H. destruct (IH H) as (w & -> & Hw & Hc).
    exists (x :: w). repeat split; [by constructor|done].
  - intros [= -> ->]. exists []. repeat split; [constructor|done].
Qed.

Lemma skip_ws_app w t :
  Forall (fun x => is_ws x = true) w → skip_ws (w ++ t) = skip_ws t.
Proof. induction 1 as [|x w Hx _ IH]; simpl; [done|]. by rewrite Hx. Qed.

Lemma skip_ws_stop c t : is_ws c = false → skip_ws (c :: t) = c :: t.
Proof. intros H. simpl. by rewrite H. Qed.

Lemma skip_ws_nil_inv s : skip_ws s = [] → Forall (fun x => is_ws x = true) s.
Proof.
  induction s as [|x s IH]; simpl; [constructor|].
  destruct (is_ws x) eqn:E; [|discriminate]. intros H. constructor; auto.
Qed.

Lemma cons_char_Some x r str rest :
  cons_char x r = Some (str, rest) →
  ∃ str', r = Some (str', rest) ∧ str = x :: str'.
Proof.
  unfold cons_char. destruct r as [[cs rs]|]; simpl; [|discriminate].
  intros [= <- <-]. eauto.
Qed.

Lemma scanstring_short_escape b u l :
  (b =? c_backslash)%N = true → (u =? ch "u")%N = true → (length l < 4)%nat →
  ∀ r, scanstring (b :: u :: l) = Some r → False.
Proof.
  intros Hb Hu Hl r. cbn [scanstring].
  assert ((b =? c_quote)%N = false) as ->.
  { apply N.eqb_eq in Hb. subst b. reflexivity. }
  rewrite Hb, Hu.
  destruct l as [|k1 [|k2 [|k3 [|k4 l]]]]; simpl in Hl; try discriminate; lia.
Qed.

Lemma scanstring_local n :
  ∀ s str rest, (length s ≤ n)%nat → scanstring s = Some (str, rest) →
  ∃ c, s = c ++ rest ∧ c ≠ [] ∧ ∀ rest', scanstring (c ++ rest') = Some (str, rest').
Proof.
  induction n as [|n IH]; intros s str rest Hlen H.
  { destruct s; [discriminate|simpl in Hlen; lia]. }
  destruct s as [|c0 s1]; [discriminate|]. simpl in Hlen.
  cbn [scanstring] in H.
  destruct (c0 =? c_quote)%N eqn:Eq.
  { injection H as <- <-. exists [c0]. split; [done|]. split; [done|].
    intros rest'. cbn [app scanstring]. by rewrite Eq. }
  destruct (c0 =? c_backslash)%N eqn:Eb.
  2:{ destruct (c0 <? 32)%N eqn:Ec; [discriminate|].
      apply cons_char_Some in H as (str' & H & ->).
      apply IH in H as (c & -> & Hc & Hloc); [|lia].
      exists (c0 :: c). split; [done|]. split; [done|].
      intros rest'. cbn [app scanstring]. rewrite Eq, Eb, Ec, Hloc. done. }
  destruct s1 as [|esc s2]; [discriminate|]. simpl in Hlen.
  destruct (esc =? ch "u")%N eqn:Eu.
  2:{ destruct (backslash_char esc) as [char|] eqn:Ech; [|discriminate]. simpl in H.
      apply cons_char_Some in H as (str' & H & ->).
      apply IH in H as (c & -> & Hc & Hloc); [|lia].
      exists (c0 :: esc :: c). split; [done|]. split; [done|].
      intros rest'. cbn [app scanstring]. rewrite Eq, Eb, Eu, Ech.
      cbn [mbind option_bind]. rewrite Hloc. done. }
  destruct s2 as [|h1 [|h2 [|h3 [|h4 s3]]]]; try discriminate. simpl in Hlen.
  destruct (decode_uXXXX h1 h2 h3 h4) as [uni|] eqn:Ed; [|discriminate].
  cbn [mbind option_bind] in H.
  (* the step taken on [s3] *)
  assert (∀ t, scanstring (c0 :: esc :: h1 :: h2 :: h3 :: h4 :: t) =
    match t with
    | b :: u :: k1 :: k2 :: k3 :: k4 :: s4 =>
        if is_high_surrogate uni && (b =? c_backslash)%N && (u =? ch "u")%N then
          uni2 ← decode_uXXXX k1 k2 k3 k4;
          if is_low_surrogate uni2
          then cons_char (join_surrogates uni uni2) (scanstring s4)
          else cons_char uni (scanstring t)
        else cons_char uni (scanstring t)
    | _ => cons_char uni (scanstring t)
    end) as Hstep.
  { intros t. cbn [scanstring]. rewrite Eq, Eb, Eu, Ed. reflexivity. }
  (* the case where a pair is joined *)
  assert (∀ b u k1 k2 k3 k4 s4 uni2,
    s3 = b :: u :: k1 :: k2 :: k3 :: k4 :: s4 →
    is_high_surrogate uni && (b =? c_backslash)%N && (u =? ch "u")%N = true →
    decode_uXXXX k1 k2 k3 k4 = Some uni2 → is_low_surrogate uni2 = true →
    cons_char (join_surrogates uni uni2) (scanstring s4) = Some (str, rest) →
    ∃ c, c0 :: esc :: h1 :: h2 :: h3 :: h4 :: s3 = c ++ rest ∧ c ≠ [] ∧
      ∀ rest', scanstring (c ++ rest') = Some (str, rest')) as Hjoin.
  { intros b u k1 k2 k3 k4 s4 uni2 -> Hc Hd Hl Hs.
    apply cons_char_Some in Hs as (str' & Hs & ->).
    apply IH in Hs as (c & -> & Hcne & Hloc); [|simpl in Hlen; lia].
    exists (c0 :: esc :: h1 :: h2 :: h3 :: h4 :: b :: u :: k1 :: k2 :: k3 :: k4 :: c).
    split; [done|]. split; [done|]. intros rest'.
    change (scanstring (c0 :: esc :: h1 :: h2 :: h3 :: h4 ::
              (b :: u :: k1 :: k2 :: k3 :: k4 :: (c ++ rest'))) = Some (join_surrogates uni uni2 :: str', rest')).
    rewrite Hstep, Hc, Hd. cbn [mbind option_bind]. rewrite Hl, Hloc. done. }
  (* the case where the escape stands alone *)
  assert (cons_char uni (scanstring s3) = Some (str, rest) →
    (∀ b u k1 k2 k3 k4 s4, s3 = b :: u :: k1 :: k2 :: k3 :: k4 :: s4 →
       is_high_surrogate uni && (b =? c_backslash)%N && (u =? ch "u")%N = true →
       ∃ uni2, decode_uXXXX k1 k2 k3 k4 = Some uni2 ∧ is_low_surrogate uni2 = false) →
    ∃ c, c0 :: esc :: h1 :: h2 :: h3 :: h4 :: s3 = c ++ rest ∧ c ≠ [] ∧
      ∀ rest', scanstring (c ++ rest') = Some (str, rest')) as Hsingle.
  { intros Hs Hpair.
    apply cons_char_Some in Hs as (str' & Hs & ->).
    apply IH in Hs as (c & -> & Hcne & Hloc); [|lia].
    exists (c0 :: esc :: h1 :: h2 :: h3 :: h4 :: c).
    split; [done|]. split; [done|]. intros rest'.
    change (scanstring (c0 :: esc :: h1 :: h2 :: h3 :: h4 :: (c ++ rest')) =
            Some (uni :: str', rest')).
    rewrite Hstep.
    pose proof (Hloc rest') as Ht. pose proof (Hloc []) as Hnil.
    set (t := c ++ rest') in *. rewrite !Ht.
    destruct (is_high_surrogate uni) eqn:Ehigh.
    2:{ by destruct t as [|? [|? [|? [|? [|? [|? ?]]]]]]. }
    destruct c as [|b c]; [done|].
    destruct (b =? c_backslash)%N eqn:Ebb.
    2:{ subst t. rewrite <- app_comm_cons.
        destruct (c ++ rest') as [|? [|? [|? [|? [|? ?]]]]]; cbn [andb]; by rewrite ?Ebb. }
    destruct c as [|u c].
    { exfalso. cbn [app scanstring] in Hnil. rewrite Ebb in Hnil.
      apply N.eqb_eq in Ebb. subst b. discriminate Hnil. }
    destruct (u =? ch "u")%N eqn:Euu.
    2:{ subst t. rewrite <- !app_comm_cons.
        destruct (c ++ rest') as [|? [|? [|? [|? ?]]]]; cbn [andb]; by rewrite ?Ebb, ?Euu. }
    destruct c as [|k1 [|k2 [|k3 [|k4 c]]]];
      try (exfalso; rewrite app_nil_r in Hnil;
           eapply (scanstring_short_escape b u); [exact Ebb|exact Euu| |exact Hnil];
           simpl; lia).
    subst t. rewrite <- !app_comm_cons. rewrite Ebb, Euu. cbn [andb].
    destruct (Hpair b u k1 k2 k3 k4 (c ++ rest)) as (uni2 & Hd & Hl);
      [done|by rewrite Ebb, Euu|].
    rewrite Hd. cbn [mbind option_bind]. by rewrite Hl. }
  destruct s3 as [|b [|u [|k1 [|k2 [|k3 [|k4 s4]]]]]];
    try (apply Hsingle; [exact H|intros; discriminate]).
  destruct (is_high_surrogate uni && (b =? c_backslash)%N && (u =? ch "u")%N) eqn:Ec.
  2:{ apply Hsingle; [exact H|]. intros ? ? ? ? ? ? ? [= <- <- <- <- <- <- <-] Hc. congruence. }
  destruct (decode_uXXXX k1 k2 k3 k4) as [uni2|] eqn:Ed2; [|discriminate].
  cbn [mbind option_bind] in H.
  destruct (is_low_surrogate uni2) eqn:El.
  - by eapply Hjoin.
  - apply Hsingle; [exact H|]. intros ? ? ? ? ? ? ? [= <- <- <- <- <- <- <-] _. eauto.
Qed.

Lemma stops_no_digit r : stops r → no_digit r.
Proof. destruct r; simpl; tauto. Qed.

Lemma span_digits_spec s ds r :
  span_digits s = (ds, r) →
  s = ds ++ r ∧ Forall (fun x => is_digit x = true) ds ∧ no_digit r.
Proof.
  revert ds r. induction s as [|x s IH]; intros ds r; cbn [span_digits].
  - intros [= <- <-]. by repeat split.
  - destruct (is_digit x) eqn:E.
    + destruct (span_digits s) as [ds' r'] eqn:Es. intros [= <- <-].
      destruct (IH _ _ eq_refl) as (-> & Hds & Hr).
      repeat split; [by constructor|done].
    + intros [= <- <-]. repeat split; [constructor|done].
Qed.

Lemma span_digits_app ds r :
  Forall (fun x => is_digit x = true) ds → no_digit r → span_digits (ds ++ r) = (ds, r).
Proof.
  intros Hds Hr. induction Hds as [|x ds Hx _ IH]; cbn [app span_digits].
  - destruct r as [|y r]; [done|]. cbn [span_digits]. simpl in Hr. by rewrite Hr.
  - by rewrite Hx, IH.
Qed.

Lemma no_digit_app_cons x l r : is_digit x = false → no_digit ((x :: l) ++ r).
Proof. done. Qed.

Lemma match_digits_local s digits s1 :
  match_digits s = Some (digits, s1) →
  s = digits ++ s1 ∧ digits ≠ [] ∧
  ∀ r, no_digit r → match_digits (digits ++ r) = Some (digits, r).
Proof.
  unfold match_digits. destruct s as [|c s2]; [discriminate|].
  destruct (c =? ch "0")%N eqn:E0.
  - intros [= <- <-]. repeat split; [done|]. intros r _. cbn [app]. by rewrite E0.
  - destruct (is_digit c) eqn:Ed; [|discriminate].
    destruct (span_digits s2) as [ds s3] eqn:Es. intros [= <- <-].
    destruct (span_digits_spec _ _ _ Es) as (-> & Hds & _).
    repeat split; [done|]. intros r Hr. cbn [app]. rewrite E0, Ed.
    by rewrite (span_digits_app ds r Hds Hr).
Qed.

Lemma match_integer_local s neg digits s1 :
  match_integer s = Some (neg, digits, s1) →
  ∃ c, s = c ++ s1 ∧ c ≠ [] ∧
    ∀ r, no_digit r → match_integer (c ++ r) = Some (neg, digits, r).
Proof.
  unfold match_integer. destruct s as [|c0 s']; [discriminate|].
  destruct (c0 =? ch "-")%N eqn:Em.
  - destruct (match_digits s') as [[ds r0]|] eqn:Ed; [|discriminate].
    intros [= <- <- <-]. apply match_digits_local in Ed as (-> & Hne & Hloc).
    exists (c0 :: ds). repeat split; [done|].
    intros r Hr. cbn [app]. by rewrite Em, (Hloc r Hr).
  - destruct (match_digits (c0 :: s')) as [[ds r0]|] eqn:Ed; [|discriminate].
    intros [= <- <- <-]. apply match_digits_local in Ed as (Heq & Hne & Hloc).
    exists ds. repeat split; [done|done|].
    intros r Hr. specialize (Hloc r Hr).
    destruct ds as [|d ds]; [done|]. cbn [app] in *.
    injection Heq as -> _. by rewrite Em, Hloc.
Qed.

Lemma stops_no_dot r : stops r → no_dot r.
Proof. destruct r; simpl; tauto. Qed.

Lemma stops_no_e r : stops r → no_e r.
Proof. destruct r; simpl; tauto. Qed.

Lemma dot_facts x :
  (x =? ch ".")%N = true →
  is_digit x = false ∧ (x =? ch "e")%N = false ∧ (x =? ch "E")%N = false.
Proof. intros H. apply N.eqb_eq in H. subst x. done. Qed.

Lemma e_facts x :
  (x =? ch "e")%N || (x =? ch "E")%N = true →
  is_digit x = false ∧ (x =? ch ".")%N = false.
Proof.
  intros H. apply orb_true_iff in H as [H|H]; apply N.eqb_eq in H; subst x; done.
Qed.

Lemma digit_facts x :
  is_digit x = true → (x =? ch "-")%N || (x =? ch "+")%N = false.
Proof.
  unfold is_digit, ch. intros H. apply andb_true_iff in H as [H1 H2].
  apply N.leb_le in H1. apply orb_false_iff.
  split; apply N.eqb_neq; intros ->; vm_compute in H1; by apply H1.
Qed.

Lemma match_frac_no_dot r : no_dot r → match_frac r = ([], r).
Proof.
  unfold match_frac. destruct r as [|x [|y r]]; try done.
  simpl. by intros ->.
Qed.

Lemma match_frac_inv s frac s2 :
  match_frac s = (frac, s2) →
  s = frac ++ s2 ∧
  (frac = [] ∨
   ∃ dot ds, frac = dot :: ds ∧ (dot =? ch ".")%N = true ∧
     ∀ r, no_digit r → match_frac (frac ++ r) = (frac, r)).
Proof.
  unfold match_frac.
  destruct s as [|dot [|d s']]; try (intros [= <- <-]; split; [done|by left]).
  destruct ((dot =? ch ".")%N && is_digit d) eqn:E.
  - destruct (span_digits (d :: s')) as [ds rest] eqn:Es. intros [= <- <-].
    destruct (span_digits_spec _ _ _ Es) as (Heq & Hds & _).
    split; [cbn [app]; by rewrite <- Heq|]. right.
    apply andb_true_iff in E as [E1 E2].
    exists dot, ds. repeat split; [done|].
    intros r Hr. destruct ds as [|d' ds'].
    { cbn [span_digits] in Es. rewrite E2 in Es.
      destruct (span_digits s'); discriminate. }
    cbn [app] in Heq. injection Heq as <- _.
    cbn [app]. rewrite E1, E2. cbn [andb].
    change (d :: ds' ++ r) with ((d :: ds') ++ r).
    by rewrite (span_digits_app (d :: ds') r Hds Hr).
  - intros [= <- <-]. split; [done|by left].
Qed.

Lemma match_exp_no_e r : no_e r → match_exp r = ([], r).
Proof.
  unfold match_exp. destruct r as [|x r]; [done|].
  simpl. by intros [-> ->].
Qed.

Lemma match_exp_inv s exp s3 :
  match_exp s = (exp, s3) →
  s = exp ++ s3 ∧
  (exp = [] ∨
   ∃ e l, exp = e :: l ∧ (e =? ch "e")%N || (e =? ch "E")%N = true ∧
     ∀ r, no_digit r → match_exp (exp ++ r) = (exp, r)).
Proof.
  unfold match_exp. destruct s as [|e s1]; [intros [= <- <-]; split; [done|by left]|].
  destruct ((e =? ch "e")%N || (e =? ch "E")%N) eqn:Ee;
    [|intros [= <- <-]; split; [done|by left]].
  destruct s1 as [|c s'].
  { cbn [span_digits]. intros [= <- <-]. split; [done|by left]. }
  destruct ((c =? ch "-")%N || (c =? ch "+")%N) eqn:Es.
  - destruct (span_digits s') as [[|d ds] rest] eqn:Ed;
      [intros [= <- <-]; split; [done|by left]|].
    intros [= <- <-]. destruct (span_digits_spec _ _ _ Ed) as (-> & Hds & _).
    split; [done|]. right. exists e, ([c] ++ d :: ds). repeat split; [done|].
    intros r Hr. cbn [app]. rewrite Ee, Es.
    change (d :: ds ++ r) with ((d :: ds) ++ r).
    by rewrite (span_digits_app (d :: ds) r Hds Hr).
  - destruct (span_digits (c :: s')) as [[|d ds] rest] eqn:Ed;
      [intros [= <- <-]; split; [done|by left]|].
    intros [= <- <-]. destruct (span_digits_spec _ _ _ Ed) as (Heq & Hds & _).
    split; [cbn [app] in *; by rewrite Heq|]. right.
    exists e, ([] ++ d :: ds). repeat split; [done|].
    intros r Hr. cbn [app]. rewrite Ee.
    assert ((d =? ch "-")%N || (d =? ch "+")%N = false) as ->.
    { apply digit_facts. by inversion Hds. }
    change (d :: ds ++ r) with ((d :: ds) ++ r).
    by rewrite (span_digits_app (d :: ds) r Hds Hr).
Qed.

Lemma match_number_local s v rest :
  match_number s = Some (v, rest) →
  ∃ c, s = c ++ rest ∧ c ≠ [] ∧
    ∀ r, stops r → match_number (c ++ r) = Some (v, r).
Proof.
  unfold match_number.
  destruct (match_integer s) as [[[neg digits] s1]|] eqn:Ei; [|discriminate].
  cbn [mbind option_bind].
  destruct (match_frac s1) as [frac s2] eqn:Ef.
  destruct (match_exp s2) as [exp s3] eqn:Ee.
  intros Hv.
  assert (rest = s3) as -> by (destruct frac, exp; congruence).
  apply match_integer_local in Ei as (ci & -> & Hci & Hiloc).
  apply match_frac_inv in Ef as (-> & Hf).
  apply match_exp_inv in Ee as (-> & He).
  exists (ci ++ frac ++ exp). split; [by rewrite <- !app_assoc|].
  split; [by destruct ci|]. intros r Hr.
  assert (match_exp (exp ++ r) = (exp, r)) as Hexp.
  { destruct He as [-> | (e & l & -> & Hhe & Hl)].
    - apply match_exp_no_e. by apply stops_no_e.
    - apply Hl. by apply stops_no_digit. }
  assert (no_digit (exp ++ r) ∧ no_dot (exp ++ r)) as [Hnd Hndot].
  { destruct He as [-> | (e & l & -> & Hhe & Hl)].
    - split; [by apply stops_no_digit|by apply stops_no_dot].
    - apply e_facts in Hhe. simpl. tauto. }
  assert (match_frac (frac ++ exp ++ r) = (frac, exp ++ r)) as Hfrac.
  { destruct Hf as [-> | (dot & ds & -> & Hdot & Hl)].
    - by apply match_frac_no_dot.
    - by apply Hl. }
  assert (no_digit (frac ++ exp ++ r)) as Hnd'.
  { destruct Hf as [-> | (dot & ds & -> & Hdot & Hl)]; [done|].
    apply dot_facts in Hdot. simpl. tauto. }
  rewrite <- !app_assoc, (Hiloc _ Hnd'). cbn [mbind option_bind].
  rewrite Hfrac, Hexp. destruct frac, exp; congruence.
Qed.

Lemma starts_with_inv p s : starts_with p s = true → s = p ++ drop (length p) s.
Proof.
  revert s. induction p as [|a p IH]; intros s; [done|].
  destruct s as [|b s]; cbn [starts_with]; [discriminate|].
  intros H. apply andb_true_iff in H as [H1 H2]. apply N.eqb_eq in H1. subst b.
  cbn [app length drop]. f_equal. by apply IH.
Qed.

Lemma starts_with_app p r : starts_with p (p ++ r) = true.
Proof. induction p as [|a p IH]; [done|]. cbn [app starts_with]. by rewrite N.eqb_refl. Qed.

Lemma match_word_inv w v s v' rest :
  match_word w v s = Some (v', rest) → v' = v ∧ s = py w ++ rest.
Proof.
  unfold match_word. destruct (starts_with (py w) s) eqn:E; [|discriminate].
  intros [= <- <-]. split; [done|]. by apply starts_with_inv.
Qed.

Lemma match_word_app w v r : match_word w v (py w ++ r) = Some (v, r).
Proof.
  unfold match_word. rewrite starts_with_app. by rewrite drop_app_length.
Qed.

Lemma match_number_head x t r :
  match_number (x :: t) = Some r → (x =? ch "-")%N = true ∨ is_digit x = true.
Proof.
  unfold match_number, match_integer.
  destruct (x =? ch "-")%N; [by left|]. right.
  unfold match_digits in H.
  destruct (x =? ch "0")%N eqn:E0; [apply N.eqb_eq in E0; by subst x|].
  destruct (is_digit x); [done|discriminate].
Qed.

Lemma number_not_word x t w v :
  (x =? ch "-")%N = true ∨ is_digit x = true →
  w = "null"%string ∨ w = "true"%string ∨ w = "false"%string →
  match_word w v (x :: t) = None.
Proof.
  intros Hx Hw. unfold match_word.
  enough (starts_with (py w) (x :: t) = false) as -> by done.
  assert (x ≠ ch "n" ∧ x ≠ ch "t" ∧ x ≠ ch "f") as (Hn & Ht & Hf).
  { destruct Hx as [Hx|Hx].
    - apply N.eqb_eq in Hx. subst x. done.
    - unfold is_digit in Hx. apply andb_true_iff in Hx as [_ Hx].
      apply N.leb_le in Hx. repeat split; intros ->; vm_compute in Hx; by apply Hx. }
  destruct Hw as [-> | [-> | ->]]; cbn [py list_ascii_of_string List.map starts_with];
    apply andb_false_iff; left; apply N.eqb_neq; by intros <-.
Qed.

Lemma scan_atom_local s v rest :
  scan_atom s = Some (v, rest) →
  ∃ c, s = c ++ rest ∧ c ≠ [] ∧ (∀ d, v ≠ JDict d) ∧
    ∀ r, stops r → scan_atom (c ++ r) = Some (v, r).
Proof.
  unfold scan_atom.
  destruct (match_word "null" JNull s) as [[v1 r1]|] eqn:E1.
  { intros [= <- <-]. apply match_word_inv in E1 as [-> ->].
    exists (py "null"). split; [done|]. split; [done|]. split; [done|]. intros r _. reflexivity. }
  destruct (match_word "true" (JBool true) s) as [[v2 r2]|] eqn:E2.
  { intros [= <- <-]. apply match_word_inv in E2 as [-> ->].
    exists (py "true"). split; [done|]. split; [done|]. split; [done|]. intros r _. reflexivity. }
  destruct (match_word "false" (JBool false) s) as [[v3 r3]|] eqn:E3.
  { intros [= <- <-]. apply match_word_inv in E3 as [-> ->].
    exists (py "false"). split; [done|]. split; [done|]. split; [done|]. intros r _. reflexivity. }
  destruct (match_number s) as [[v4 r4]|] eqn:E4.
  { intros [= <- <-]. pose proof E4 as Hn.
    apply match_number_local in E4 as (c & -> & Hc & Hloc).
    exists c. split; [done|]. split; [done|]. split.
    - intros d ->. unfold match_number in Hn.
      destruct (match_integer (c ++ r4)) as [[[? ?] ?]|]; [|discriminate].
      cbn [mbind option_bind] in Hn.
      destruct (match_frac _) as [fr ?], (match_exp _) as [ex ?]. destruct fr, ex; discriminate.
    - intros r Hr. destruct c as [|x c]; [done|]. cbn [app] in *.
      pose proof (match_number_head _ _ _ Hn) as Hx.
      rewrite !(number_not_word x _ _ _ Hx) by tauto.
      by rewrite (Hloc r Hr). }
  destruct (match_word "NaN" _ s) as [[v5 r5]|] eqn:E5.
  { intros [= <- <-]. apply match_word_inv in E5 as [-> ->].
    exists (py "NaN"). split; [done|]. split; [done|]. split; [done|]. intros r _. reflexivity. }
  destruct (match_word "Infinity" _ s) as [[v6 r6]|] eqn:E6.
  { intros [= <- <-]. apply match_word_inv in E6 as [-> ->].
    exists (py "Infinity"). split; [done|]. split; [done|]. split; [done|]. intros r _. reflexivity. }
  intros E7. apply match_word_inv in E7 as [-> ->].
  exists (py "-Infinity"). split; [done|]. split; [done|]. split; [done|]. intros r _. reflexivity.
Qed.

Lemma is_ws_stops x t : is_ws x = true → stops (x :: t).
Proof.
  unfold is_ws. intros H.
  repeat (apply orb_true_iff in H as [H|H]); apply N.eqb_eq in H; subst x; done.
Qed.

Lemma delimiter_stops x t :
  (x =? ch "}")%N = true ∨ (x =? ch ",")%N = true ∨ (x =? ch "]")%N = true →
  stops (x :: t).
Proof. intros [H|[H|H]]; apply N.eqb_eq in H; subst x; done. Qed.

Lemma stops_after_ws w x t :
  Forall (fun y => is_ws y = true) w → stops (x :: t) → stops (w ++ x :: t).
Proof. intros Hw H. destruct Hw; [done|]. by apply is_ws_stops. Qed.

Lemma skip_ws_app_stop w x t :
  Forall (fun y => is_ws y = true) w → is_ws x = false →
  skip_ws (w ++ x :: t) = x :: t.
Proof. intros Hw Hx. rewrite skip_ws_app by done. by apply skip_ws_stop. Qed.

Lemma scan_once_nil f : scan_once f [] = None.
Proof. by destruct f. Qed.

Lemma scan_once_eq f c s1 :
  scan_once (S f) (c :: s1) =
    if (c =? c_quote)%N then
      '(str, rest) ← scanstring s1; Some (JStr str, rest)
    else if (c =? ch "{")%N then
      match skip_ws s1 with
      | c2 :: s2 =>
          if (c2 =? ch "}")%N then Some (JDict [], s2)
          else if (c2 =? c_quote)%N then
            '(pairs, rest) ← parse_members f s2;
            Some (JDict (dict_of_pairs pairs), rest)
          else None
      | [] => None
      end
    else if (c =? ch "[")%N then
      match skip_ws s1 with
      | c2 :: s2 =>
          if (c2 =? ch "]")%N then Some (JList [], s2)
          else
            '(values, rest) ← parse_elements f (c2 :: s2);
            Some (JList values, rest)
      | [] => None
      end
    else scan_atom (c :: s1).
Proof. reflexivity. Qed.

Lemma parse_members_eq f s :
  parse_members (S f) s =
    '(key, s1) ← scanstring s;
    match skip_ws s1 with
    | colon :: s2 =>
        if (colon =? ch ":")%N then
          '(value, s3) ← scan_once f (skip_ws s2);
          match skip_ws s3 with
          | c :: s4 =>
              if (c =? ch "}")%N then Some ([(key, value)], s4)
              else if (c =? ch ",")%N then
                match skip_ws s4 with
                | q :: s5 =>
                    if (q =? c_quote)%N then
                      '(pairs, rest) ← parse_members f s5;
                      Some ((key, value) :: pairs, rest)
                    else None
                | [] => None
                end
              else None
          | [] => None
          end
        else None
    | [] => None
    end.
Proof. reflexivity. Qed.

Lemma parse_elements_eq f s :
  parse_elements (S f) s =
    '(value, s1) ← scan_once f s;
    match skip_ws s1 with
    | c :: s2 =>
        if (c =? ch "]")%N then Some ([value], s2)
        else if (c =? ch ",")%N then
          '(values, rest) ← parse_elements f (skip_ws s2);
          Some (value :: values, rest)
        else None
    | [] => None
    end.
Proof. reflexivity. Qed.

Lemma last_app_Some {A} (l1 l2 : list A) y : last l2 = Some y → last (l1 ++ l2) = Some y.
Proof. intros H. by rewrite last_app, H. Qed.

Lemma last_cons_Some {A} (x : A) l y : last l = Some y → last (x :: l) = Some y.
Proof. intros H. by rewrite last_cons, H. Qed.

Ltac last_tac := repeat first [done | apply last_app_Some | apply last_cons_Some].

Ltac norm_app := repeat first [rewrite <- app_assoc | progress cbn [app]].

Ltac lens :=
  repeat first
    [ progress cbn [length] in *
    | match goal with
      | H : context [length (_ ++ _)] |- _ => rewrite length_app in H
      | |- context [length (_ ++ _)] => rewrite length_app
      end ];
  lia.

Ltac fuel_succ f' Hf :=
  let f'' := fresh "f''" in
  destruct f' as [|f'']; [exfalso; lens|].

Lemma value_local_step f :
  members_local f → elements_local f → value_local (S f).
Proof.
  intros IHm IHe s v rest H.
  destruct s as [|c0 s1]; [discriminate|]. rewrite scan_once_eq in H.
  destruct (c0 =? c_quote)%N eqn:Eq.
  { destruct (scanstring s1) as [[str r0]|] eqn:Es; [|discriminate].
    injection H as <- <-.
    apply (scanstring_local (length s1)) in Es as (c & -> & Hc & Hloc); [|done].
    exists (c0 :: c). split; [done|]. split; [done|]. split; [done|].
    intros f' r Hf _. fuel_succ f' Hf. cbn [app]. rewrite scan_once_eq, Eq, Hloc. done. }
  destruct (c0 =? ch "{")%N eqn:Eo.
  { destruct (skip_ws s1) as [|c2 s2] eqn:Ew; [discriminate|].
    apply skip_ws_inv in Ew as (w & -> & Hw & Hc2).
    destruct (c2 =? ch "}")%N eqn:Ec.
    { injection H as <- <-. exists (c0 :: w ++ [c2]).
      split; [cbn [app]; by rewrite <- app_assoc|]. split; [done|]. split.
      - intros _ _. apply N.eqb_eq in Eo, Ec. subst. split; [done|].
        by rewrite app_comm_cons, last_snoc.
      - intros f' r Hf _. fuel_succ f' Hf. cbn [app]. rewrite scan_once_eq, Eq, Eo.
        rewrite <- app_assoc. cbn [app]. rewrite (skip_ws_app_stop w c2 r Hw Hc2).
        by rewrite Ec. }
    destruct (c2 =? c_quote)%N eqn:Ecq; [|discriminate].
    destruct (parse_members f s2) as [[pairs r0]|] eqn:Em; [|discriminate].
    injection H as <- <-.
    apply IHm in Em as (cm & -> & Hlast & Hloc).
    exists (c0 :: w ++ c2 :: cm).
    split; [cbn [app]; by rewrite <- app_assoc|]. split; [done|]. split.
    - intros _ _. apply N.eqb_eq in Eo. subst. split; [done|].
      by rewrite app_comm_cons, last_app, last_cons, Hlast.
    - intros f' r Hf _. fuel_succ f' Hf. cbn [app]. rewrite scan_once_eq, Eq, Eo.
      rewrite <- app_assoc. cbn [app]. rewrite (skip_ws_app_stop w c2 _ Hw Hc2).
      rewrite Ec, Ecq, Hloc; [done|]. lens. }
  destruct (c0 =? ch "[")%N eqn:Ea.
  { destruct (skip_ws s1) as [|c2 s2] eqn:Ew; [discriminate|].
    apply skip_ws_inv in Ew as (w & -> & Hw & Hc2).
    destruct (c2 =? ch "]")%N eqn:Ec.
    { injection H as <- <-. exists (c0 :: w ++ [c2]).
      split; [cbn [app]; by rewrite <- app_assoc|]. split; [done|]. split; [done|].
      intros f' r Hf _. fuel_succ f' Hf. cbn [app]. rewrite scan_once_eq, Eq, Eo, Ea.
      rewrite <- app_assoc. cbn [app]. rewrite (skip_ws_app_stop w c2 r Hw Hc2).
      by rewrite Ec. }
    destruct (parse_elements f (c2 :: s2)) as [[values r0]|] eqn:Ee; [|discriminate].
    injection H as <- <-.
    apply IHe in Ee as (ce & Heq & Hne & Hloc).
    destruct ce as [|x ce]; [done|]. cbn [app] in Heq. injection Heq as <- ->.
    exists (c0 :: w ++ c2 :: ce).
    split; [cbn [app]; by rewrite <- app_assoc|]. split; [done|]. split; [done|].
    intros f' r Hf _. fuel_succ f' Hf. cbn [app]. rewrite scan_once_eq, Eq, Eo, Ea.
    rewrite <- app_assoc. cbn [app]. rewrite (skip_ws_app_stop w c2 _ Hw Hc2).
    rewrite Ec. change (c2 :: ce ++ r) with ((c2 :: ce) ++ r). rewrite Hloc; [done|]. lens. }
  apply scan_atom_local in H as (c & Heq & Hc & Hnd & Hloc).
  exists c. split; [done|]. split; [done|]. split; [intros d ->; by destruct (Hnd d)|].
  intros f' r Hf Hr. destruct c as [|x c]; [done|]. fuel_succ f' Hf.
  cbn [app] in *. injection Heq as <- _.
  rewrite scan_once_eq, Eq, Eo, Ea. by apply Hloc.
Qed.

Lemma members_local_step f :
  value_local f → members_local f → members_local (S f).
Proof.
  intros IHv IHm s pairs rest H. rewrite parse_members_eq in H.
  destruct (scanstring s) as [[key s1]|] eqn:Ek; [|discriminate].
  cbn [mbind option_bind] in H.
  apply (scanstring_local (length s)) in Ek as (ck & -> & Hck & Hkloc); [|done].
  destruct (skip_ws s1) as [|colon s2] eqn:Ew1; [discriminate|].
  apply skip_ws_inv in Ew1 as (w1 & -> & Hw1 & Hcolon).
  destruct (colon =? ch ":")%N eqn:Ec; [|discriminate].
  destruct (scan_once f (skip_ws s2)) as [[value s3]|] eqn:Ev; [|discriminate].
  cbn [mbind option_bind] in H.
  destruct (skip_ws s2) as [|x t] eqn:Ew2; [by rewrite scan_once_nil in Ev|].
  apply skip_ws_inv in Ew2 as (w2 & -> & Hw2 & Hx).
  apply IHv in Ev as (cv & Heq & Hcv & _ & Hvloc).
  destruct cv as [|x' cv]; [done|]. cbn [app] in Heq. injection Heq as <- ->.
  destruct (skip_ws s3) as [|c s4] eqn:Ew3; [discriminate|].
  apply skip_ws_inv in Ew3 as (w3 & -> & Hw3 & Hc).
  assert (∀ r, stops (w3 ++ c :: r) →
    ∀ f', (2 * S (length cv) + 2 ≤ f')%nat →
    parse_members (S f') ((ck ++ w1 ++ colon :: w2 ++ x :: cv ++ w3 ++ [c]) ++ r) =
    match (if (c =? ch "}")%N then Some ([(key, value)], r)
           else if (c =? ch ",")%N then
             match skip_ws r with
             | q :: s5 =>
                 if (q =? c_quote)%N then
                   '(pairs, rest) ← parse_members f' s5;
                   Some ((key, value) :: pairs, rest)
                 else None
             | [] => None
             end
           else None) with
    | Some x => Some x
    | None => None
    end) as Hstep.
  { intros r Hr f' Hf. rewrite parse_members_eq.
    rewrite <- app_assoc, Hkloc. cbn [mbind option_bind].
    rewrite <- app_assoc. cbn [app]. rewrite (skip_ws_app_stop w1 colon _ Hw1 Hcolon), Ec.
    rewrite <- app_assoc. cbn [app]. rewrite (skip_ws_app_stop w2 x _ Hw2 Hx).
    rewrite <- app_assoc. rewrite app_comm_cons, (Hvloc f' _); [|lens|by rewrite <- app_assoc].
    cbn [mbind option_bind]. rewrite <- app_assoc. cbn [app].
    rewrite (skip_ws_app_stop w3 c _ Hw3 Hc).
    destruct (c =? ch "}")%N; [done|]. destruct (c =? ch ",")%N; [|done].
    destruct (skip_ws r) as [|q s5]; [done|]. destruct (q =? c_quote)%N; [|done].
    by destruct (parse_members f' s5) as [[? ?]|]. }
  destruct (c =? ch "}")%N eqn:Ecl.
  { injection H as <- <-.
    exists (ck ++ w1 ++ colon :: w2 ++ x :: cv ++ w3 ++ [c]).
    split; [by norm_app|]. split.
    - apply N.eqb_eq in Ecl. subst c.
      last_tac.
    - intros f' r Hf. fuel_succ f' Hf. rewrite Hstep; [done| |lens].
      apply stops_after_ws; [done|]. apply delimiter_stops. by left. }
  destruct (c =? ch ",")%N eqn:Eco; [|discriminate].
  destruct (skip_ws s4) as [|q s5] eqn:Ew4; [discriminate|].
  apply skip_ws_inv in Ew4 as (w4 & -> & Hw4 & Hq).
  destruct (q =? c_quote)%N eqn:Eqq; [|discriminate].
  destruct (parse_members f s5) as [[pairs' r0]|] eqn:Em; [|discriminate].
  injection H as <- <-.
  apply IHm in Em as (cm & -> & Hlast & Hmloc).
  exists ((ck ++ w1 ++ colon :: w2 ++ x :: cv ++ w3 ++ [c]) ++ w4 ++ q :: cm).
  split; [by norm_app|]. split.
  - last_tac.
  - intros f' r Hf. fuel_succ f' Hf. rewrite <- app_assoc. rewrite Hstep; [| |lens].
    + rewrite <- app_assoc. cbn [app]. rewrite (skip_ws_app_stop w4 q _ Hw4 Hq), Eqq.
      rewrite Hmloc; [done|lens].
    + apply stops_after_ws; [done|]. apply delimiter_stops. right. by left.
Qed.

Lemma elements_local_step f :
  value_local f → elements_local f → elements_local (S f).
Proof.
  intros IHv IHe s values rest H. rewrite parse_elements_eq in H.
  destruct (scan_once f s) as [[value s1]|] eqn:Ev; [|discriminate].
  cbn [mbind option_bind] in H.
  apply IHv in Ev as (cv & -> & Hcv & _ & Hvloc).
  destruct (skip_ws s1) as [|c s2] eqn:Ew; [discriminate|].
  apply skip_ws_inv in Ew as (w & -> & Hw & Hc).
  destruct (c =? ch "]")%N eqn:Ecl.
  { injection H as <- <-. exists (cv ++ w ++ [c]).
    split; [by norm_app|]. split; [by destruct cv|].
    intros f' r Hf. fuel_succ f' Hf. rewrite parse_elements_eq.
    rewrite <- app_assoc, (Hvloc f'' _); [|lens|].
    - cbn [mbind option_bind]. rewrite <- app_assoc. cbn [app].
      by rewrite (skip_ws_app_stop w c _ Hw Hc), Ecl.
    - rewrite <- app_assoc. apply stops_after_ws; [done|].
      apply delimiter_stops. right. by right. }
  destruct (c =? ch ",")%N eqn:Eco; [|discriminate].
  destruct (parse_elements f (skip_ws s2)) as [[values' r0]|] eqn:Ee; [|discriminate].
  injection H as <- <-.
  apply IHe in Ee as (ce & Heq & Hce & Heloc).
  destruct ce as [|x ce]; [done|]. cbn [app] in Heq.
  apply skip_ws_inv in Heq as (w2 & -> & Hw2 & Hx).
  exists (cv ++ w ++ c :: w2 ++ x :: ce).
  split; [by norm_app|].
  split; [by destruct cv|].
  intros f' r Hf. fuel_succ f' Hf. rewrite parse_elements_eq.
  rewrite <- app_assoc, (Hvloc f'' _); [|lens|].
  - cbn [mbind option_bind]. rewrite <- app_assoc. cbn [app].
    rewrite (skip_ws_app_stop w c _ Hw Hc), Ecl, Eco.
    rewrite <- app_assoc. cbn [app]. rewrite (skip_ws_app_stop w2 x _ Hw2 Hx).
    change (x :: ce ++ r) with ((x :: ce) ++ r). rewrite Heloc; [done|lens].
  - rewrite <- app_assoc. apply stops_after_ws; [done|].
    apply delimiter_stops. right. by left.
Qed.

Lemma parse_local f : value_local f ∧ members_local f ∧ elements_local f.
Proof.
  induction f as [|f (IHv & IHm & IHe)].
  - repeat split; intros ? ? ? H; discriminate H.
  - split; [by apply value_local_step|].
    split; [by apply members_local_step|by apply elements_local_step].
Qed.

(** A text that [json.loads] reads as a dict is that dict's text between
    two runs of whitespace, and the text alone loads to the same dict. *)
Lemma loads_dict_shape text d :
  loads text = Some (JDict d) →
  ∃ w1 c w2,
    text = w1 ++ c ++ w2 ∧
    Forall (fun x => is_ws x = true) w1 ∧ Forall (fun x => is_ws x = true) w2 ∧
    head c = Some (ch "{") ∧ last c = Some (ch "}") ∧
    loads c = Some (JDict d).
Proof.
  unfold loads. intros H.
  destruct (scan_once _ (skip_ws text)) as [[obj rest]|] eqn:Es; [|discriminate].
  cbn [mbind option_bind] in H.
  destruct (skip_ws rest) eqn:Er; [|discriminate]. injection H as ->.
  apply skip_ws_nil_inv in Er.
  destruct (skip_ws text) as [|x t] eqn:Et; [by rewrite scan_once_nil in Es|].
  apply skip_ws_inv in Et as (w1 & -> & Hw1 & Hx).
  destruct (parse_local (2 * length (w1 ++ x :: t) + 2)) as (Hv & _ & _).
  apply Hv in Es as (c & Heq & Hc & Hd & Hloc).
  destruct (Hd d eq_refl) as [Hhead Hlast].
  exists w1, c, rest. rewrite Heq. repeat split; try done.
  destruct c as [|y c]; [done|]. injection Hhead as ->.
  rewrite skip_ws_stop by done.
  rewrite <- (app_nil_r (ch "{" :: c)) at 2. rewrite Hloc; [done|lia|done].
Qed.

Lemma is_ws_not_brace x :
  is_ws x = true → (x =? ch "{")%N = false ∧ (x =? ch "}")%N = false.
Proof.
  unfold is_ws. intros H.
  repeat (apply orb_true_iff in H as [H|H]); apply N.eqb_eq in H; subst x; done.
Qed.

Lemma greedy_body_none w :
  Forall (fun x => is_ws x = true) w → Re.greedy_body w = None.
Proof.
  induction 1 as [|x w Hx _ IH]; [done|]. cbn [Re.greedy_body]. rewrite IH.
  by destruct (is_ws_not_brace x Hx) as [_ ->].
Qed.

Lemma greedy_body_last c w :
  last c = Some (ch "}") → Forall (fun x => is_ws x = true) w →
  Re.greedy_body (c ++ w) = Some c.
Proof.
  intros Hlast Hw. induction c as [|x c IH]; [done|].
  cbn [app Re.greedy_body]. destruct c as [|y c].
  - cbn [app]. rewrite (greedy_body_none w Hw). injection Hlast as ->. done.
  - rewrite IH; [done|]. exact Hlast.
Qed.

Lemma search_match_raw w1 c w2 :
  Forall (fun x => is_ws x = true) w1 → Forall (fun x => is_ws x = true) w2 →
  head c = Some (ch "{") → last c = Some (ch "}") →
  Re.search Re.match_raw (w1 ++ c ++ w2) = Some c.
Proof.
  intros Hw1 Hw2 Hhead Hlast.
  destruct c as [|x c]; [done|]. injection Hhead as ->.
  assert (Re.match_raw ((ch "{" :: c) ++ w2) = Some (ch "{" :: c)) as Hc.
  { cbn [app Re.match_raw]. rewrite N.eqb_refl.
    rewrite greedy_body_last; [done| |done].
    destruct c as [|y c]; [discriminate Hlast|]. exact Hlast. }
  induction Hw1 as [|y w1 Hy _ IH]; cbn [app].
  - cbn [Re.search]. cbn [app] in Hc. by rewrite Hc.
  - cbn [Re.search Re.match_raw]. by destruct (is_ws_not_brace y Hy) as [-> _].
Qed.

(** Where the code block pattern finds nothing that parses, the raw
    pattern recovers a dict that is the whole text. *)
Lemma try_raw_whole_dict text d :
  loads text = Some (JDict d) → try_raw text = Some (JDict d).
Proof.
  intros H. apply loads_dict_shape in H as (w1 & c & w2 & -> & Hw1 & Hw2 & Hh & Hl & Hc).
  unfold try_raw. rewrite search_match_raw by done. exact Hc.
Qed.

End JsonFacts.

(** ** The confidence scorer *)

Section NumberFacts.

(** A literal is read as the float nearest to the number it denotes:
    [1.8] is the quotient of the ints 18 and 10. The comparison of a
    float and an int is that of the numbers: 2^53 as a float is below the
    int 2^53 + 1, which as a float is 2^53. An int beyond the floats is
    not converted. The sum of 0.1 and 0.2 is not 0.3. Of two equal
    numbers, [max] and [min] return the first. *)
Example number_examples :
  flt "1.8" = PFloat (S754_finite false 8106479329266893 (-52)) ∧
  py_truediv (PInt 18) (PInt 10) = Some (flt "1.8") ∧
  py_sub (flt "2.2") (flt "1.8") = Some (PFloat (S754_finite false 7205759403792796 (-54))) ∧
  py_lt (PFloat (Float.of_Z (2 ^ 53))) (PInt (2 ^ 53 + 1)) = true ∧
  to_float (PInt (2 ^ 53 + 1)) = Some (Float.of_Z (2 ^ 53)) ∧
  to_float (PInt (10 ^ 400)) = None ∧
  py_truediv (PInt (2 * 10 ^ 400)) (PInt 2) = None ∧
  py_truediv (flt "1.0") (flt "0.0") = None ∧
  flt "1e-400" = PFloat (S754_zero false) ∧
  flt "1e999" = PFloat (S754_infinity false) ∧
  builtin_sum [flt "0.1"; flt "0.2"] = Some (flt "0.30000000000000004") ∧
  builtin_sum [PInt 1; PInt 2; flt "0.5"] = Some (flt "3.5") ∧
  py_max [PInt 1; flt "2.5"; PInt 2; flt "2.5"] = Some (flt "2.5") ∧
  py_min [PInt 3; flt "2.5"; PInt 2; flt "2.0"] = Some (PInt 2).
Proof. by vm_compute. Qed.

(** The comparison of a float with an int, which the code makes on
    scaled integers, is the comparison of the rational numbers. *)
Lemma compare_scaled (m e z : Z) :
  (if 0 <=? e then m * 2 ^ e ?= z else m ?= z * 2 ^ (- e))
  = (inject_Z m * 2 ^ e ?= inject_Z z)%Q.
Proof.
  destruct (Z.leb_spec 0 e) as [He|He].
  - assert (Heq : (inject_Z m * 2 ^ e == inject_Z (m * 2 ^ e))%Q).
    { rewrite inject_Z_mult. apply Qmult_comp; [reflexivity|].
      symmetry. apply (Zpower_Qpower 2 e He). }
    rewrite (Qcompare_comp _ _ Heq _ _ (Qeq_refl _)).
    unfold Qcompare. cbn [Qnum Qden inject_Z]. by rewrite !Z.mul_1_r.
  - assert (Hpos : 0 < 2 ^ (- e)) by (apply Z.pow_pos_nonneg; lia).
    assert (Heq : (inject_Z m * 2 ^ e == inject_Z m / inject_Z (2 ^ (- e)))%Q).
    { unfold Qdiv. apply Qmult_comp; [reflexivity|].
      replace e with (- - e) at 1 by lia. rewrite Qpower_opp.
      apply Qinv_comp. symmetry. apply (Zpower_Qpower 2 (- e)). lia. }
    rewrite (Qcompare_comp _ _ Heq _ _ (Qeq_refl _)).
    destruct (2 ^ (- e)) as [|p|p] eqn:Ep; try lia.
    unfold Qcompare, Qdiv, Qinv, Qmult. cbn [Qnum Qden inject_Z].
    by rewrite !Z.mul_1_r, Pos.mul_1_l.
Qed.

Lemma py_compare_value x z q :
  Spec.value x = Some q → py_compare x (PInt z) = Some (q ?= inject_Z z)%Q.
Proof.
  destruct x as [a|[s| | |s m e]]; intros [= <-]; cbn [py_compare Float.compare_Z].
  - unfold Qcompare. cbn [Qnum Qden inject_Z]. by rewrite !Z.mul_1_r.
  - unfold Qcompare. cbn [Qnum Qden inject_Z]. by rewrite Z.mul_0_l, Z.mul_1_r.
  - by rewrite compare_scaled.
Qed.

Lemma py_le_at_most x z : py_le x (PInt z) = true ↔ Spec.at_most x z.
Proof.
  unfold py_le, Spec.at_most. destruct (Spec.value x) as [q|] eqn:Hv.
  - rewrite (py_compare_value _ _ _ Hv), Qle_alt.
    destruct (q ?= inject_Z z)%Q; split; (done || congruence).
  - destruct x as [a|[s|[]| |s m e]]; try discriminate Hv;
      cbn [py_compare Float.compare_Z]; split; (done || congruence).
Qed.

Lemma py_gt_above x z : py_gt x (PInt z) = true ↔ Spec.above x z.
Proof.
  unfold py_gt, Spec.above. destruct (Spec.value x) as [q|] eqn:Hv.
  - rewrite (py_compare_value _ _ _ Hv). change (inject_Z z < q)%Q with (q > inject_Z z)%Q.
    rewrite Qgt_alt. destruct (q ?= inject_Z z)%Q; split; (done || congruence).
  - destruct x as [a|[s|[]| |s m e]]; try discriminate Hv;
      cbn [py_compare Float.compare_Z]; split; (done || congruence).
Qed.

End NumberFacts.

Section RevenueFacts.
Import Revenue.
Context `{Interpreter}.

Lemma positive_amounts_spec estimates :
  positive_amounts estimates = Spec.positive_amounts estimates.
Proof.
  unfold positive_amounts, Spec.positive_amounts.
  induction estimates as [|e es IH]; [done|].
  cbn [List.filter List.map]. fold (Spec.amount e).
  assert (Hgt := py_gt_above (Spec.amount e) 0).
  destruct (py_gt (Spec.amount e) (PInt 0)).
  - rewrite bool_decide_eq_true_2 by by apply Hgt. cbn [List.map]. by rewrite IH.
  - rewrite bool_decide_eq_false_2 by (intros Ha; by apply Hgt in Ha). by rewrite IH.
Qed.

(** The spread that the code computes is the one of the specification,
    and it is 0 below two positive amounts. *)
Lemma variance_pct_spec estimates :
  variance_pct estimates = Spec.variance_pct estimates.
Proof.
  unfold variance_pct, Spec.variance_pct, Spec.mean.
  rewrite <- positive_amounts_spec.
  destruct (Nat.leb_spec 2 (length (positive_amounts estimates))) as [Hle|Hlt].
  - rewrite decide_True by done.
    destruct (py_max _); [|done]. destruct (py_min _); [|done].
    cbn [mbind option_bind]. destruct (py_sub _ _); [|done].
    cbn [mbind option_bind]. by destruct (builtin_sum _).
  - by rewrite decide_False by lia.
Qed.

Lemma variance_pct_few estimates :
  (length (positive_amounts estimates) < 2)%nat → variance_pct estimates = Some (PInt 0).
Proof.
  intros Hlen. unfold variance_pct.
  destruct (2 <=? _)%nat eqn:E; [|reflexivity].
  apply Nat.leb_le in E. lia.
Qed.

Lemma best_credibility_total estimates :
  estimates ≠ [] → is_Some (best_credibility estimates).
Proof. destruct estimates; [congruence|]. intros _. by eexists. Qed.

Lemma calculate_confidence_empty d :
  estimates_of d = [] → calculate_confidence d = Some INSUFFICIENT.
Proof. unfold calculate_confidence. by intros ->. Qed.

Lemma calculate_confidence_nonempty d :
  estimates_of d ≠ [] →
  calculate_confidence d =
    c ← confidence_before_stale d; stale_pass (has_stale_data (flags_of d)) c.
Proof.
  unfold calculate_confidence, confidence_before_stale.
  destruct (estimates_of d) as [|e es] eqn:E; [congruence|]. intros _.
  destruct (best_credibility (e :: es)); simpl; [|reflexivity].
  destruct (variance_pct (e :: es)); reflexivity.
Qed.

Lemma stale_pass_rank (c : confidence) :
  c ≠ INSUFFICIENT →
  ∃ c', stale_pass true c = Some c' ∧ rank c' = rank c - 1.
Proof. destruct c; [congruence|..]; intros _; eexists; (split; [reflexivity|reflexivity]). Qed.

Lemma fold_max_ge (l : list Z) (x : Z) :
  x ≤ fold_left Z.max l x ∧ Forall (fun y => y ≤ fold_left Z.max l x) l.
Proof.
  revert x. induction l as [|y l IH]; intros x; simpl; [split; [lia|constructor]|].
  destruct (IH (Z.max x y)) as [H1 H2]. split; [lia|].
  constructor; [lia|exact H2].
Qed.

Lemma fold_max_in (l : list Z) (x : Z) :
  fold_left Z.max l x = x ∨ fold_left Z.max l x ∈ l.
Proof.
  revert x. induction l as [|y l IH]; intros x; simpl; [by left|].
  destruct (IH (Z.max x y)) as [H0|H0].
  - rewrite H0. destruct (Z.max_spec x y) as [[_ ->]|[_ ->]]; [right; left|by left].
  - right. by right.
Qed.

(** [best_credibility] is the largest credibility score of the list. *)
Lemma best_credibility_max estimates best :
  best_credibility estimates = Some best →
  Forall (fun e => default 0 (credibility_score e) ≤ best) estimates ∧
  Exists (fun e => default 0 (credibility_score e) = best) estimates.
Proof.
  unfold best_credibility, py_max_Z.
  destruct estimates as [|e es]; simpl; [discriminate|]. intros [= <-].
  set (f := fun e => default 0 (credibility_score e)).
  destruct (fold_max_ge (List.map f es) (f e)) as [H1 H2]. split.
  - constructor; [exact H1|].
    rewrite Forall_forall in H2. apply Forall_forall. intros x Hx.
    apply H2. apply list_elem_of_In. apply (in_map f). by apply list_elem_of_In.
  - destruct (fold_max_in (List.map f es) (f e)) as [H0|H0].
    + left. exact (eq_sym H0).
    + right. apply list_elem_of_In, in_map_iff in H0. destruct H0 as (x & Hx & Hin).
      apply Exists_exists. exists x. split; [by apply list_elem_of_In|exact Hx].
Qed.

(** The chain of [if]/[elif] selects what the rule table of the
    specification selects. *)
Lemma base_confidence_table best count v :
  Spec.first_match (Spec.rule_table best count v) LOW (base_confidence best count v).
Proof.
  unfold base_confidence, Spec.rule_table, Spec.first_match.
  destruct (Z.leb_spec 80 best), (Z.leb_spec 70 best), (Z.leb_spec 60 best),
    (Z.leb_spec 50 best); try lia;
  destruct (Nat.leb_spec 2 count), (Nat.eqb_spec count 1); try lia;
  assert (H20 := py_le_at_most v 20); assert (H40 := py_le_at_most v 40);
  destruct (py_le v (PInt 20)), (py_le v (PInt 40)); simpl;
  intuition (lia || congruence).
Qed.

Lemma calculate_confidence_unfold d best v :
  estimates_of d ≠ [] →
  best_credibility (estimates_of d) = Some best →
  variance_pct (estimates_of d) = Some v →
  base_level d = Some (base_confidence best (length (estimates_of d)) v) ∧
  confidence_before_stale d =
    Some (variance_pass (has_high_variance v (flags_of d))
            (base_confidence best (length (estimates_of d)) v)) ∧
  calculate_confidence d =
    stale_pass (has_stale_data (flags_of d))
      (variance_pass (has_high_variance v (flags_of d))
         (base_confidence best (length (estimates_of d)) v)).
Proof.
  intros Hne Hb Hv. rewrite (calculate_confidence_nonempty d Hne).
  unfold base_level, confidence_before_stale. rewrite Hb, Hv. done.
Qed.

(** Where line 211 raises, so does the scorer. *)
Lemma calculate_confidence_raises d :
  estimates_of d ≠ [] →
  variance_pct (estimates_of d) = None →
  base_level d = None ∧ confidence_before_stale d = None ∧ calculate_confidence d = None.
Proof.
  intros Hne Hv. rewrite (calculate_confidence_nonempty d Hne).
  unfold base_level, confidence_before_stale. rewrite Hv.
  by destruct (best_credibility _).
Qed.

Lemma variance_pass_fires c :
  c = HIGH ∨ c = MODERATE_HIGH → variance_pass true c = MODERATE.
Proof. by intros [-> | ->]. Qed.

Lemma confidence_before_stale_inv d c :
  estimates_of d ≠ [] →
  confidence_before_stale d = Some c →
  c ≠ INSUFFICIENT ∧
  calculate_confidence d = stale_pass (has_stale_data (flags_of d)) c.
Proof.
  intros Hne Hc. rewrite (calculate_confidence_nonempty d Hne), Hc. split; [|done].
  unfold confidence_before_stale in Hc.
  destruct (best_credibility _) as [best|]; [|done].
  destruct (variance_pct _) as [v|]; [|done]. injection Hc as <-.
  unfold variance_pass, base_confidence.
  repeat (match goal with |- context [if ?b then _ else _] => destruct b end);
    discriminate.
Qed.

End RevenueFacts.

(** *** Claims about the scorer *)

Section RevenueClaims.
Import Revenue.

(** C1, as stated, fails: the stale_data rule takes LOW to INSUFFICIENT.
    On one estimate of credibility 10 with stale_data flagged, the level
    before the stale demotion is LOW and the returned level is
    INSUFFICIENT. *)
Lemma C1_stale_low_counterexample :
  estimates_of stale_low_data ≠ [] ∧
  has_stale_data (flags_of stale_low_data) = true ∧
  confidence_before_stale stale_low_data = Some LOW ∧
  calculate_confidence stale_low_data = Some INSUFFICIENT.
Proof. repeat split; try reflexivity. discriminate. Qed.

(** C1, amended: for a non-empty list of estimates with stale_data in
    red_flags, whenever line 235 is reached, with a level [c], that level
    is not INSUFFICIENT and the returned level is exactly one step below
    it in the ordered enum; the walk stops at index 0, so LOW is taken to
    INSUFFICIENT. (Line 235 is not reached when the arithmetic of line
    211 raises.) This holds whatever the builtin [sum] computes. *)
Theorem C1_stale_decrements_one_step `{Interpreter} (d : data) (c : confidence) :
  estimates_of d ≠ [] →
  has_stale_data (flags_of d) = true →
  confidence_before_stale d = Some c →
  c ≠ INSUFFICIENT ∧
  ∃ c', calculate_confidence d = Some c' ∧ rank c' = rank c - 1 ∧
        (c = LOW → c' = INSUFFICIENT).
Proof.
  intros Hne Hstale Hbefore.
  destruct (confidence_before_stale_inv d c Hne Hbefore) as [Hc Hret].
  rewrite Hstale in Hret. split; [exact Hc|].
  destruct (stale_pass_rank c Hc) as (c' & Hc' & Hrank).
  exists c'. split; [congruence|]. split; [exact Hrank|].
  intros ->. destruct c'; simpl in Hrank; (reflexivity || lia).
Qed.

Lemma C1_stale_decrements_witness :
  LOW ≠ INSUFFICIENT ∧
  ∃ c', calculate_confidence stale_low_data = Some c' ∧ rank c' = rank LOW - 1 ∧
        (LOW = LOW → c' = INSUFFICIENT).
Proof.
  apply (C1_stale_decrements_one_step stale_low_data LOW);
    [discriminate|reflexivity|reflexivity].
Defined.

(** C2, as stated, fails: the stale_data decrement is applied after the
    variance rule has fired. On one estimate of credibility 90 (base level
    MODERATE-HIGH) flagged high_variance and stale_data, the returned
    level is LOW, not MODERATE. *)
Lemma C2_both_flags_counterexample :
  base_level both_flags_data = Some MODERATE_HIGH ∧
  has_high_variance (PInt 0) (flags_of both_flags_data) = true ∧
  has_stale_data (flags_of both_flags_data) = true ∧
  calculate_confidence both_flags_data = Some LOW ∧
  calculate_confidence both_flags_data ≠ Some MODERATE.
Proof. repeat split; try reflexivity. discriminate. Qed.

(** C2, amended: when the variance rule fires (variance_pct > 300 or
    high_variance flagged, base level HIGH or MODERATE-HIGH) the level is
    set to MODERATE, and the returned level is MODERATE when stale_data is
    not in red_flags; the two rules are two independent statements, not
    alternatives. *)
Theorem C2_variance_rule_forces_moderate `{Interpreter}
    (d : data) (c0 : confidence) (v : number) :
  estimates_of d ≠ [] →
  base_level d = Some c0 →
  c0 = HIGH ∨ c0 = MODERATE_HIGH →
  variance_pct (estimates_of d) = Some v →
  has_high_variance v (flags_of d) = true →
  confidence_before_stale d = Some MODERATE ∧
  (has_stale_data (flags_of d) = false → calculate_confidence d = Some MODERATE).
Proof.
  intros Hne Hbase Hc0 Hv Hhv.
  destruct (best_credibility_total _ Hne) as [best Hb].
  destruct (calculate_confidence_unfold d best v Hne Hb Hv) as (Hbase' & Hbefore & Hret).
  rewrite Hbase in Hbase'. injection Hbase' as Heq.
  rewrite <- Heq, Hhv, (variance_pass_fires c0 Hc0) in Hbefore, Hret.
  split; [exact Hbefore|]. intros Hstale. by rewrite Hstale in Hret.
Qed.

Lemma C2_variance_rule_witness :
  confidence_before_stale high_variance_only_data = Some MODERATE ∧
  (has_stale_data (flags_of high_variance_only_data) = false →
   calculate_confidence high_variance_only_data = Some MODERATE).
Proof.
  apply (C2_variance_rule_forces_moderate high_variance_only_data MODERATE_HIGH (PInt 0));
    [discriminate|reflexivity|by right|reflexivity|reflexivity].
Defined.

(** C10: the two demotion passes compose. When the base level is HIGH or
    MODERATE-HIGH and red_flags hold both high_variance (or variance_pct
    is above 300) and stale_data, the variance rule sets MODERATE and the
    stale_data rule takes it one step down: the returned level is LOW. *)
Theorem C10_demotions_compose `{Interpreter}
    (d : data) (c0 : confidence) (v : number) :
  estimates_of d ≠ [] →
  base_level d = Some c0 →
  c0 = HIGH ∨ c0 = MODERATE_HIGH →
  variance_pct (estimates_of d) = Some v →
  has_high_variance v (flags_of d) = true →
  has_stale_data (flags_of d) = true →
  confidence_before_stale d = Some MODERATE ∧
  calculate_confidence d = Some LOW.
Proof.
  intros Hne Hbase Hc0 Hv Hhv Hstale.
  destruct (best_credibility_total _ Hne) as [best Hb].
  destruct (calculate_confidence_unfold d best v Hne Hb Hv) as (Hbase' & Hbefore & Hret).
  rewrite Hbase in Hbase'. injection Hbase' as Heq.
  rewrite <- Heq, Hhv, (variance_pass_fires c0 Hc0) in Hbefore, Hret.
  split; [exact Hbefore|]. by rewrite Hstale in Hret.
Qed.

Lemma C10_demotions_compose_witness :
  confidence_before_stale both_flags_data = Some MODERATE ∧
  calculate_confidence both_flags_data = Some LOW.
Proof.
  apply (C10_demotions_compose both_flags_data MODERATE_HIGH (PInt 0));
    [discriminate|reflexivity|by right|reflexivity|reflexivity|reflexivity].
Defined.

(** C5, as stated, fails: a non-empty list need not get a base level. On
    two estimates whose amounts are the int 10^400, the mean of line 211,
    an int by an int, is beyond the range of the floats: the division
    raises OverflowError and no level is returned. *)
Lemma C5_no_level_beyond_floats_counterexample :
  estimates_of beyond_floats_data ≠ [] ∧
  Spec.mean (positive_amounts (estimates_of beyond_floats_data)) = None ∧
  variance_pct (estimates_of beyond_floats_data) = None ∧
  base_level beyond_floats_data = None ∧
  calculate_confidence beyond_floats_data = None.
Proof. split; [discriminate|]. by vm_compute. Qed.

(** C5, amended: the empty list scores INSUFFICIENT. For a non-empty list,
    best is the largest credibility score and count the number of
    estimates; variance_pct is what the specification says, computed in
    Python's arithmetic over the strictly positive amounts: the int 0
    below two of them, else the largest minus the smallest by the mean
    times 100. Where this arithmetic raises, so does the scorer; where it
    returns, the base level is the one the ordered rule table selects on
    its value, first matching rule first, LOW otherwise, the value being
    compared with 20 and 40 as a number; and the returned level is that
    base level put through the two demotion passes. This holds whatever
    the builtin [sum] computes. *)
Theorem C5_base_level_rule_table `{Interpreter} (d : data) :
  (estimates_of d = [] → calculate_confidence d = Some INSUFFICIENT) ∧
  (estimates_of d ≠ [] →
   ∃ best,
     best_credibility (estimates_of d) = Some best ∧
     Forall (fun e => default 0 (credibility_score e) ≤ best) (estimates_of d) ∧
     Exists (fun e => default 0 (credibility_score e) = best) (estimates_of d) ∧
     variance_pct (estimates_of d) = Spec.variance_pct (estimates_of d) ∧
     ((length (Spec.positive_amounts (estimates_of d)) < 2)%nat →
      variance_pct (estimates_of d) = Some (PInt 0)) ∧
     (Spec.variance_pct (estimates_of d) = None →
      base_level d = None ∧ calculate_confidence d = None) ∧
     ∀ v, Spec.variance_pct (estimates_of d) = Some v →
       ∃ c,
         base_level d = Some c ∧
         Spec.first_match (Spec.rule_table best (length (estimates_of d)) v) LOW c ∧
         calculate_confidence d =
           stale_pass (has_stale_data (flags_of d))
             (variance_pass (has_high_variance v (flags_of d)) c)).
Proof.
  split; [apply calculate_confidence_empty|]. intros Hne.
  destruct (best_credibility_total _ Hne) as [best Hb].
  destruct (best_credibility_max _ _ Hb) as [Hmax Hex].
  exists best. split; [exact Hb|]. split; [exact Hmax|]. split; [exact Hex|].
  split; [apply variance_pct_spec|].
  split; [intros Hfew; apply variance_pct_few; by rewrite positive_amounts_spec|].
  rewrite <- variance_pct_spec. split.
  - intros Hv. by destruct (calculate_confidence_raises d Hne Hv) as (? & _ & ?).
  - intros v Hv.
    destruct (calculate_confidence_unfold d best v Hne Hb Hv) as (Hbase & _ & Hret).
    exists (base_confidence best (length (estimates_of d)) v).
    split; [exact Hbase|]. split; [apply base_confidence_table|exact Hret].
Qed.

(** The examples of the specification for the scorer, and the pair on
    which the spread computed in floats, 20.000000000000007, is above the
    20 of the first rule although the amounts are a fifth of their mean
    apart. *)
Example score_two_agreeing : calculate_confidence two_agreeing_data = Some HIGH.
Proof. by vm_compute. Qed.

Example score_single_90 :
  calculate_confidence (Data (Some [Estimate (Some 90) None]) None) = Some MODERATE_HIGH.
Proof. reflexivity. Qed.

(** On three ints, the first of 18 digits, the spread in floats,
    300.00000000000006, is above 300 although that of the numbers is
    below. *)
Example spread_three_ints :
  variance_pct three_ints_estimates
  = Some (PFloat (S754_finite false 5277655813324801 (-44))) ∧
  py_gt (PFloat (S754_finite false 5277655813324801 (-44))) (PInt 300) = true.
Proof. by vm_compute. Qed.

Example score_fifth_apart :
  variance_pct (estimates_of fifth_apart_data)
  = Some (PFloat (S754_finite false 5629499534213122 (-48))) ∧
  calculate_confidence fifth_apart_data = Some MODERATE_HIGH.
Proof. by vm_compute. Qed.

End RevenueClaims.

(** ** The source router *)

Section RouterFacts.
Import DeepAnalysis.

Lemma get_high_relevance_sources_filter statements threshold :
  get_high_relevance_sources statements threshold =
  List.map candidate (List.filter (eligible threshold) statements).
Proof.
  unfold get_high_relevance_sources.
  enough (∀ acc,
    fold_left
      (fun sources st =>
         if (threshold <=? default 0 (outreach_relevance st)) &&
            truthy (default [] (source_url st))
         then sources ++ [candidate st] else sources) statements acc =
    acc ++ List.map candidate (List.filter (eligible threshold) statements))
    as H by apply (H []).
  induction statements as [|st sts IH]; intros acc; simpl.
  - by rewrite app_nil_r.
  - rewrite IH. unfold eligible at 2.
    destruct (_ && _); simpl; [by rewrite <- app_assoc|done].
Qed.

Lemma sources_eligible statements threshold :
  Forall (fun s => threshold ≤ relevance s ∧ url s ≠ [])
    (get_high_relevance_sources statements threshold).
Proof.
  rewrite get_high_relevance_sources_filter.
  induction statements as [|st sts IH]; simpl; [constructor|].
  destruct (eligible threshold st) eqn:E; simpl; [|exact IH].
  constructor; [|exact IH].
  unfold eligible in E. apply andb_true_iff in E as [E1 E2]. simpl. split.
  - by apply Z.leb_le.
  - by destruct (default [] (source_url st)).
Qed.

Lemma Forall_filter_keeps {A} (P : A → Prop) (f : A → bool) (l : list A) :
  Forall P l → Forall P (List.filter f l).
Proof.
  induction 1 as [|x l Hx Hl IH]; simpl; [constructor|].
  destruct (f x); [by constructor|exact IH].
Qed.

Lemma Forall_filter_holds {A} (f : A → bool) (l : list A) :
  Forall (fun x => f x = true) (List.filter f l).
Proof.
  induction l as [|x l IH]; simpl; [constructor|].
  destruct (f x) eqn:E; [by constructor|exact IH].
Qed.

Lemma filter_map_comm {A B} (g : A → B) (f : B → bool) (l : list A) :
  List.filter f (List.map g l) = List.map g (List.filter (fun x => f (g x)) l).
Proof.
  induction l as [|x l IH]; simpl; [done|]. destruct (f (g x)); simpl; by rewrite IH.
Qed.

Lemma filter_filter_and {A} (f g : A → bool) (l : list A) :
  List.filter f (List.filter g l) = List.filter (fun x => g x && f x) l.
Proof.
  induction l as [|x l IH]; simpl; [done|].
  destruct (g x); simpl; [destruct (f x); by rewrite IH|exact IH].
Qed.

End RouterFacts.

(** C6: whatever the statements and the threshold, the sources are the
    candidates of the statements that have relevance at least the
    threshold and a non-empty url, in input order, so no source has a
    smaller relevance or an empty url. The YouTube sources that are
    processed are all the sources of kind youtube, in input order, and
    only these; the articles that are processed are the first 5, in input
    order, of the sources of kind article, press_release, interview or
    news, so at most 5 and only of these kinds, and all of them when they
    are at most 5; a source of any other kind is in neither list. *)
Theorem C6_router_filters_and_caps
    (statements : list DeepAnalysis.stmt) (threshold : Z) :
  let sources := DeepAnalysis.get_high_relevance_sources statements threshold in
  let primary := DeepAnalysis.yt_sources sources in
  let secondary := DeepAnalysis.processed_articles sources in
  let video s := DeepAnalysis.type s = py "youtube" in
  let written s :=
    DeepAnalysis.type s ∈ [py "article"; py "press_release"; py "interview"; py "news"] in
  sources =
    List.map candidate
      (List.filter
         (fun st => bool_decide (threshold ≤ default 0 (DeepAnalysis.outreach_relevance st) ∧
                                 default [] (DeepAnalysis.source_url st) ≠ []))
         statements) ∧
  Forall (fun s => threshold ≤ DeepAnalysis.relevance s ∧ DeepAnalysis.url s ≠ []) sources ∧
  primary = List.filter (fun s => bool_decide (video s)) sources ∧
  secondary = take 5 (List.filter (fun s => bool_decide (written s)) sources) ∧
  (length secondary ≤ 5)%nat ∧
  (∀ s, s ∈ primary ↔ s ∈ sources ∧ video s) ∧
  (∀ s, s ∈ secondary → s ∈ sources ∧ written s) ∧
  ((length (List.filter (fun s => bool_decide (written s)) sources) ≤ 5)%nat →
   ∀ s, s ∈ sources → written s → s ∈ secondary) ∧
  (∀ s, ¬ video s → ¬ written s → (s ∉ primary) ∧ (s ∉ secondary)).
Proof.
  intros sources primary secondary video written.
  assert (Hsources : sources =
    List.map candidate
      (List.filter
         (fun st => bool_decide (threshold ≤ default 0 (DeepAnalysis.outreach_relevance st) ∧
                                 default [] (DeepAnalysis.source_url st) ≠ []))
         statements)).
  { unfold sources. rewrite get_high_relevance_sources_filter. f_equal.
    apply filter_ext. intros st. unfold eligible.
    destruct (default [] (DeepAnalysis.source_url st)) as [|x u] eqn:Eu; cbn [DeepAnalysis.truthy].
    - rewrite andb_false_r. symmetry. apply bool_decide_eq_false. by intros [_ ?].
    - rewrite andb_true_r. destruct (Z.leb_spec threshold (default 0 (DeepAnalysis.outreach_relevance st))).
      + symmetry. by apply bool_decide_eq_true.
      + symmetry. apply bool_decide_eq_false. intros [? _]. lia. }
  assert (Hprimary : primary = List.filter (fun s => bool_decide (video s)) sources).
  { done. }
  assert (Hwritten : List.filter DeepAnalysis.is_article sources
                     = List.filter (fun s => bool_decide (written s)) sources).
  { apply filter_ext. intros s. unfold DeepAnalysis.is_article, written.
    apply bool_decide_ext. rewrite !elem_of_cons, !elem_of_nil. tauto. }
  assert (Hsecondary : secondary = take 5 (List.filter (fun s => bool_decide (written s)) sources)).
  { unfold secondary, DeepAnalysis.processed_articles, DeepAnalysis.art_sources.
    by rewrite Hwritten. }
  assert (Hin_primary : ∀ s, s ∈ primary ↔ s ∈ sources ∧ video s).
  { intros s. rewrite Hprimary, !list_elem_of_In, filter_In, bool_decide_eq_true. done. }
  assert (Hin_secondary : ∀ s, s ∈ secondary → s ∈ sources ∧ written s).
  { intros s Hs. rewrite Hsecondary in Hs.
    apply (subseteq_take 5), list_elem_of_In, filter_In in Hs as [Hs Hw].
    apply bool_decide_eq_true in Hw. by rewrite list_elem_of_In. }
  split; [exact Hsources|]. split; [apply sources_eligible|].
  split; [exact Hprimary|]. split; [exact Hsecondary|].
  split; [rewrite Hsecondary, length_take; lia|].
  split; [exact Hin_primary|]. split; [exact Hin_secondary|]. split.
  - intros Hlen s Hs Hw. rewrite Hsecondary, take_ge by exact Hlen.
    apply list_elem_of_In, filter_In. split; [by apply list_elem_of_In|].
    by apply bool_decide_eq_true.
  - intros s Hv Hw. split.
    + intros Hs. apply Hin_primary in Hs as [_ ?]. done.
    + intros Hs. apply Hin_secondary in Hs as [_ ?]. done.
Qed.

(** ** The aggregator *)

Section AggregatorFacts.
Import DeepAnalysis.

Lemma extend_if_present_default {A} (acc : list A) (field : option (list A)) :
  extend_if_present acc field = acc ++ default [] field.
Proof. destruct field; simpl; [done|by rewrite app_nil_r]. Qed.

Lemma fold_absorb_youtube (yts : list yt_result) (m : lists) :
  fold_left absorb_youtube yts m =
  Lists (l_executives_found m ++ contributions yt_executives_found yts)
        (l_strategic_insights m ++ contributions yt_strategic_insights yts)
        (l_outreach_angles m ++ contributions yt_outreach_angles yts)
        (l_key_quotes m)
        (l_pain_points m ++ contributions yt_pain_points yts).
Proof.
  revert m. induction yts as [|yt yts IH]; intros m; simpl.
  - unfold contributions. simpl. rewrite !app_nil_r. by destruct m.
  - rewrite IH. unfold absorb_youtube, contributions. simpl.
    rewrite !extend_if_present_default, <- !app_assoc. done.
Qed.

Lemma fold_absorb_article (arts : list art_result) (m : lists) :
  fold_left absorb_article arts m =
  Lists (l_executives_found m) (l_strategic_insights m) (l_outreach_angles m)
        (l_key_quotes m ++ contributions art_executive_quotes arts)
        (l_pain_points m).
Proof.
  revert m. induction arts as [|art arts IH]; intros m; simpl.
  - unfold contributions. simpl. rewrite !app_nil_r. by destruct m.
  - rewrite IH. unfold absorb_article, contributions. simpl.
    rewrite !extend_if_present_default, <- !app_assoc. done.
Qed.

(** [merge_deep_intel], category by category. *)
Lemma merge_deep_intel_fields now company dom yts arts :
  merge_deep_intel now company dom yts arts =
  Merged company dom now yts arts
    (contributions yt_executives_found yts)
    (contributions yt_strategic_insights yts)
    (contributions yt_outreach_angles yts)
    (contributions art_executive_quotes arts)
    (list_to_set (contributions yt_pain_points yts)).
Proof.
  unfold merge_deep_intel. rewrite fold_absorb_youtube, fold_absorb_article. done.
Qed.

Lemma contributions_app {S A} (field : S → option (list A)) (l1 l2 : list S) :
  contributions field (l1 ++ l2) = contributions field l1 ++ contributions field l2.
Proof. unfold contributions. by rewrite map_app, concat_app. Qed.

Lemma contributions_absent {S A} (field : S → option (list A)) (pre post : list S) (s : S) :
  field s = None →
  contributions field (pre ++ s :: post) = contributions field (pre ++ post).
Proof.
  intros H. rewrite !contributions_app. f_equal.
  unfold contributions. simpl. by rewrite H.
Qed.

Lemma contributions_perm {S A} (field : S → option (list A)) (l1 l2 : list S) :
  l1 ≡ₚ l2 → contributions field l1 ≡ₚ contributions field l2.
Proof.
  induction 1 as [|x l1 l2 _ IH|x y l|l1 l2 l3 _ IH1 _ IH2]; unfold contributions in *; simpl.
  - done.
  - by rewrite IH.
  - rewrite !app_assoc. f_equiv. apply Permutation_app_comm.
  - by rewrite IH1.
Qed.

Lemma contributions_nothing {S A} (field : S → option (list A)) (sources : list S) :
  Forall (fun s => default [] (field s) = []) sources → contributions field sources = [].
Proof.
  induction 1 as [|s l Hs _ IH]; unfold contributions in *; simpl; [done|].
  by rewrite Hs, IH.
Qed.

End AggregatorFacts.

(** *** Claims about the aggregator *)

Section AggregatorClaims.
Import DeepAnalysis.

Ltac merged_projections :=
  cbn [company_name domain processed_at youtube_intel article_intel executives_found
       strategic_insights outreach_angles key_quotes pain_points].

(** C7: when the YouTube results and the article results are each
    permuted, the merged pain_points are the same set; the four
    concatenated categories keep the order of the sources, and on the
    results [yt_a], [yt_b] and [art_a], [art_b] taken in the two orders
    each of them differs as a sequence. *)
Theorem C7_dedupe_permutation_invariant_concat_not :
  (∀ now company dom yts yts' arts arts',
     yts ≡ₚ yts' → arts ≡ₚ arts' →
     pain_points (merge_deep_intel now company dom yts arts) =
     pain_points (merge_deep_intel now company dom yts' arts')) ∧
  (∀ now company dom yts arts,
     let m := merge_deep_intel now company dom yts arts in
     executives_found m = contributions yt_executives_found yts ∧
     strategic_insights m = contributions yt_strategic_insights yts ∧
     outreach_angles m = contributions yt_outreach_angles yts ∧
     key_quotes m = contributions art_executive_quotes arts) ∧
  (∀ now company dom,
     let m := merge_deep_intel now company dom [yt_a; yt_b] [art_a; art_b] in
     let m' := merge_deep_intel now company dom [yt_b; yt_a] [art_b; art_a] in
     [yt_a; yt_b] ≡ₚ [yt_b; yt_a] ∧ [art_a; art_b] ≡ₚ [art_b; art_a] ∧
     executives_found m ≠ executives_found m' ∧
     strategic_insights m ≠ strategic_insights m' ∧
     outreach_angles m ≠ outreach_angles m' ∧
     key_quotes m ≠ key_quotes m' ∧
     pain_points m = pain_points m').
Proof.
  split; [|split].
  - intros now company dom yts yts' arts arts' Hyt _.
    rewrite !merge_deep_intel_fields. merged_projections.
    apply list_to_set_perm_L. by apply contributions_perm.
  - intros now company dom yts arts m. unfold m.
    rewrite merge_deep_intel_fields. done.
  - intros now company dom m m'. unfold m, m'.
    rewrite !merge_deep_intel_fields. merged_projections.
    split; [apply perm_swap|]. split; [apply perm_swap|].
    split; [discriminate|]. split; [discriminate|].
    split; [discriminate|]. split; [discriminate|].
    apply list_to_set_perm_L. apply (contributions_perm yt_pain_points). apply perm_swap.
Qed.

Lemma extract_json_parsed text :
  extract_json text = default (failure text) (parsed text).
Proof.
  unfold extract_json, parsed.
  destruct (Json.loads text); [done|].
  destruct (try_code_block text); [done|].
  by destruct (try_raw text).
Qed.

Lemma youtube_result_failed text url :
  parsed text = None →
  youtube_result text url = Some (YtResult (Some []) (Some []) None None).
Proof.
  intros H. unfold youtube_result. rewrite extract_json_parsed, H. reflexivity.
Qed.

Lemma article_result_failed text url :
  parsed text = None → article_result text url = Some (ArtResult None).
Proof.
  intros H. unfold article_result. rewrite extract_json_parsed, H. reflexivity.
Qed.

(** C8: a source that lacks the key of a category brings nothing to that
    category, wherever it stands among the sources, and the merge goes
    on; when every source is the failure sentinel of the extractor, the
    four concatenated categories are empty lists and pain_points is the
    empty set. *)
Theorem C8_missing_keys_tolerated :
  (∀ now company dom pre post yt arts,
     let m := merge_deep_intel now company dom (pre ++ yt :: post) arts in
     let m' := merge_deep_intel now company dom (pre ++ post) arts in
     (yt_executives_found yt = None → executives_found m = executives_found m') ∧
     (yt_strategic_insights yt = None → strategic_insights m = strategic_insights m') ∧
     (yt_outreach_angles yt = None → outreach_angles m = outreach_angles m') ∧
     (yt_pain_points yt = None → pain_points m = pain_points m')) ∧
  (∀ now company dom yts pre post art,
     art_executive_quotes art = None →
     key_quotes (merge_deep_intel now company dom yts (pre ++ art :: post)) =
     key_quotes (merge_deep_intel now company dom yts (pre ++ post))) ∧
  (∀ now company dom yts arts,
     Forall failed_youtube yts → Forall failed_article arts →
     let m := merge_deep_intel now company dom yts arts in
     executives_found m = [] ∧ strategic_insights m = [] ∧
     outreach_angles m = [] ∧ key_quotes m = [] ∧ pain_points m = ∅).
Proof.
  split; [|split].
  - intros now company dom pre post yt arts m m'. unfold m, m'.
    rewrite !merge_deep_intel_fields. merged_projections.
    repeat split; intros H; by rewrite (contributions_absent _ _ _ _ H).
  - intros now company dom yts pre post art H.
    rewrite !merge_deep_intel_fields. merged_projections. by apply contributions_absent.
  - intros now company dom yts arts Hyt Hart m. unfold m.
    rewrite merge_deep_intel_fields. simpl.
    assert (Forall (fun y => y = YtResult (Some []) (Some []) None None) yts) as Hy.
    { eapply Forall_impl; [exact Hyt|]. intros y (text & url & Hp & Hr).
      rewrite (youtube_result_failed _ _ Hp) in Hr. congruence. }
    assert (Forall (fun a => a = ArtResult None) arts) as Ha.
    { eapply Forall_impl; [exact Hart|]. intros a (text & url & Hp & Hr).
      rewrite (article_result_failed _ _ Hp) in Hr. congruence. }
    rewrite !contributions_nothing; [done|..];
      (eapply Forall_impl; [first [exact Hy|exact Ha]|by intros ? ->]).
Qed.



End AggregatorClaims.

(** ** The extractor *)

Section ExtractorClaims.

Lemma discovery_extract_json_parsed text :
  Discovery.extract_json text = default (Discovery.failure text) (Discovery.parsed text).
Proof.
  unfold Discovery.extract_json, Discovery.parsed.
  destruct (try_code_block text); [done|]. by destruct (try_raw text).
Qed.

Lemma revenue_extract_json_parsed text :
  Revenue.extract_json text = default (Revenue.failure text) (Revenue.parsed text).
Proof.
  unfold Revenue.extract_json, Revenue.parsed.
  destruct (Json.loads text); [done|].
  destruct (try_code_block text); [done|]. by destruct (try_raw text).
Qed.

Lemma deep_extract_json_direct text v :
  Json.loads text = Some v → DeepAnalysis.extract_json text = v.
Proof. unfold DeepAnalysis.extract_json. by intros ->. Qed.

Lemma revenue_extract_json_direct text v :
  Json.loads text = Some v → Revenue.extract_json text = v.
Proof. unfold Revenue.extract_json. by intros ->. Qed.




(** What discovery returns on [plain_object_text], where no fence
    stands. *)
Example discovery_plain_object :
  Discovery.extract_json plain_object_text = JDict [(py "a", JInt 1)].
Proof. vm_compute. reflexivity. Qed.




End ExtractorClaims.

(** * Further properties *)

(** ** The confidence scorer: where it raises, its caps and what it reads *)

Section ScorerMore.
Import Revenue.

Lemma stale_pass_total b c : is_Some (stale_pass b c).
Proof. destruct b, c; by eexists. Qed.


(** X3: of the red flags only high_variance and stale_data reach the level:
    two inputs with the same estimates that agree on these two flags get
    the same level, whatever other flags they carry. *)
Theorem X3_only_two_flags_matter `{Interpreter} (d d' : data) :
  estimates_of d = estimates_of d' →
  flagged "high_variance" (flags_of d) = flagged "high_variance" (flags_of d') →
  flagged "stale_data" (flags_of d) = flagged "stale_data" (flags_of d') →
  calculate_confidence d = calculate_confidence d'.
Proof.
  intros He Hh Hs. unfold calculate_confidence, has_high_variance, has_stale_data.
  by rewrite He, Hh, Hs.
Qed.

Lemma X3_only_two_flags_matter_witness :
  calculate_confidence aggregators_only_data = calculate_confidence two_agreeing_data.
Proof.
  apply (X3_only_two_flags_matter aggregators_only_data two_agreeing_data); reflexivity.
Defined.

Lemma base_confidence_caps best n v :
  let c := base_confidence best n v in
  (n = 1%nat → rank c ≤ 3) ∧ (best < 50 → c = LOW).
Proof.
  unfold base_confidence.
  destruct (Z.leb_spec 80 best), (Z.leb_spec 70 best), (Z.leb_spec 60 best),
    (Z.leb_spec 50 best); try lia;
  destruct (Nat.leb_spec 2 n), (Nat.eqb_spec n 1); try lia;
  destruct (py_le v (PInt 20)), (py_le v (PInt 40)); simpl; split; intros; (done || lia).
Qed.

Lemma variance_pass_rank hv c :
  rank (variance_pass hv c) ≤ rank c ∧ (hv = true → rank (variance_pass hv c) ≤ 2).
Proof. destruct hv, c; simpl; lia. Qed.

Lemma stale_pass_rank_le st c c' :
  stale_pass st c = Some c' →
  rank c' ≤ rank c ∧ (st = true → rank c' ≤ Z.max 0 (rank c - 1)).
Proof. destruct st, c; intros [= <-]; simpl; lia. Qed.

(** X4: what the returned level cannot be: a single estimate never scores
    above MODERATE-HIGH, nor does anything flagged stale_data; a result
    flagged high_variance is at most MODERATE, and at most LOW when also
    stale; a best credibility under 50 gives at most LOW; and the
    demotions never raise the base level. *)
Theorem X4_confidence_caps `{Interpreter} (d : data) (c : confidence) :
  calculate_confidence d = Some c →
  (length (estimates_of d) = 1%nat → rank c ≤ rank MODERATE_HIGH) ∧
  (has_stale_data (flags_of d) = true → rank c ≤ rank MODERATE_HIGH) ∧
  (flagged "high_variance" (flags_of d) = true → rank c ≤ rank MODERATE) ∧
  (flagged "high_variance" (flags_of d) = true → has_stale_data (flags_of d) = true →
   rank c ≤ rank LOW) ∧
  (∀ best, best_credibility (estimates_of d) = Some best → best < 50 → rank c ≤ rank LOW) ∧
  (∀ b, estimates_of d ≠ [] → base_level d = Some b → rank c ≤ rank b).
Proof.
  intros Hc. destruct (estimates_of d) as [|e es] eqn:E.
  { rewrite (calculate_confidence_empty d E) in Hc. injection Hc as <-.
    repeat split; intros; simpl; try lia; done. }
  assert (estimates_of d ≠ []) as Hne by (by rewrite E).
  destruct (best_credibility_total _ Hne) as [best Hb].
  destruct (variance_pct (estimates_of d)) as [v|] eqn:Hv; cycle 1.
  { destruct (calculate_confidence_raises d Hne Hv) as (_ & _ & Hnone). congruence. }
  destruct (calculate_confidence_unfold d best v Hne Hb Hv) as (Hbase & _ & Hret).
  rewrite E in Hb, Hbase, Hret. rewrite Hret in Hc.
  set (b0 := base_confidence best (length (e :: es)) v) in *.
  set (hv := has_high_variance v (flags_of d)) in *.
  destruct (base_confidence_caps best (length (e :: es)) v) as [Hone Hlow]. fold b0 in Hone, Hlow.
  destruct (variance_pass_rank hv b0) as [Hv1 Hv2].
  destruct (stale_pass_rank_le _ _ _ Hc) as [Hs1 Hs2].
  assert (flagged "high_variance" (flags_of d) = true → hv = true) as Hflag.
  { intros Hf. unfold hv, has_high_variance. rewrite Hf. by rewrite orb_true_r. }
  assert (0 ≤ rank b0) by (destruct b0; simpl; lia).
  simpl rank in *. repeat split.
  - intros H1. specialize (Hone H1). lia.
  - intros Hst. specialize (Hs2 Hst). destruct b0; simpl in *; lia.
  - intros Hf. specialize (Hv2 (Hflag Hf)). lia.
  - intros Hf Hst. specialize (Hv2 (Hflag Hf)). specialize (Hs2 Hst). lia.
  - intros best' Hb' Hlt. rewrite Hb in Hb'. injection Hb' as <-.
    rewrite (Hlow Hlt) in *. simpl in *. lia.
  - intros b _ Hb'. rewrite Hbase in Hb'. injection Hb' as <-. lia.
Qed.

Lemma X4_confidence_caps_witness :
  (length (estimates_of both_flags_data) = 1%nat → rank LOW ≤ rank MODERATE_HIGH) ∧
  (has_stale_data (flags_of both_flags_data) = true → rank LOW ≤ rank MODERATE_HIGH) ∧
  (flagged "high_variance" (flags_of both_flags_data) = true → rank LOW ≤ rank MODERATE) ∧
  (flagged "high_variance" (flags_of both_flags_data) = true →
   has_stale_data (flags_of both_flags_data) = true → rank LOW ≤ rank LOW) ∧
  (∀ best, best_credibility (estimates_of both_flags_data) = Some best → best < 50 →
           rank LOW ≤ rank LOW) ∧
  (∀ b, estimates_of both_flags_data ≠ [] → base_level both_flags_data = Some b →
        rank LOW ≤ rank b).
Proof. apply (X4_confidence_caps both_flags_data LOW). reflexivity. Defined.

End ScorerMore.

(** ** The source router: thresholds and sizes *)

Section RouterMore.
Import DeepAnalysis.

(** X5: raising the threshold only drops sources: what passes the higher
    threshold is a subsequence of what passes the lower one. *)
Theorem X5_raising_threshold_drops_sources
    (statements : list stmt) (t1 t2 : Z) :
  t1 ≤ t2 →
  get_high_relevance_sources statements t2 `sublist_of`
  get_high_relevance_sources statements t1.
Proof.
  intros Ht. rewrite !get_high_relevance_sources_filter.
  induction statements as [|st sts IH]; simpl; [done|].
  destruct (eligible t2 st) eqn:E2.
  - assert (eligible t1 st = true) as ->.
    { unfold eligible in *. apply andb_true_iff in E2 as [E E'].
      apply andb_true_iff. split; [|done]. apply Z.leb_le in E. apply Z.leb_le. lia. }
    simpl. by apply sublist_skip.
  - destruct (eligible t1 st); simpl; [by apply sublist_cons|done].
Qed.

Lemma X5_raising_threshold_witness :
  get_high_relevance_sources two_statements 90 `sublist_of`
  get_high_relevance_sources two_statements MIN_RELEVANCE_THRESHOLD.
Proof. apply (X5_raising_threshold_drops_sources two_statements 80 90). lia. Defined.

(** X6: there are no more sources than statements, every snippet has at most
    200 characters, and no source counts both as a YouTube source and as
    an article. *)
Theorem X6_sources_bounded (statements : list stmt) (threshold : Z) :
  let sources := get_high_relevance_sources statements threshold in
  (length sources ≤ length statements)%nat ∧
  Forall (fun s => (length (snippet s) ≤ 200)%nat) sources ∧
  (length (yt_sources sources) + length (art_sources sources) ≤ length sources)%nat.
Proof.
  intros sources. unfold sources. rewrite get_high_relevance_sources_filter.
  split; [|split].
  - rewrite length_map. apply filter_length_le.
  - apply Forall_forall. intros s Hs. apply list_elem_of_In, in_map_iff in Hs.
    destruct Hs as (st & <- & _). simpl. rewrite length_take. lia.
  - unfold yt_sources, art_sources.
    generalize (List.map candidate (List.filter (eligible threshold) statements)).
    intros l. induction l as [|s l IH]; cbn [List.filter length]; [lia|].
    assert (is_youtube s && is_article s = false) as Hboth.
    { unfold is_youtube, is_article.
      destruct (decide (type s = py "youtube")) as [Hy|Hy].
      - rewrite (bool_decide_eq_true_2 _ Hy). rewrite bool_decide_eq_false_2; [done|].
        rewrite Hy. intros H. repeat (apply elem_of_cons in H as [H|H]; [discriminate H|]).
        by apply elem_of_nil in H.
      - by rewrite (bool_decide_eq_false_2 _ Hy). }
    destruct (is_youtube s), (is_article s); cbn [length]; try discriminate; lia.
Qed.

End RouterMore.

(** ** The aggregator: merging more sources *)

Section AggregatorMore.
Import DeepAnalysis.

(** X7: merging more sources appends: on concatenated lists of results each
    concatenated category is the concatenation of the two merges, and
    pain_points is the union. *)
Theorem X7_merge_of_concatenated_sources
    (now company dom : pystr) (yts1 yts2 : list yt_result) (arts1 arts2 : list art_result) :
  let m := merge_deep_intel now company dom (yts1 ++ yts2) (arts1 ++ arts2) in
  let m1 := merge_deep_intel now company dom yts1 arts1 in
  let m2 := merge_deep_intel now company dom yts2 arts2 in
  executives_found m = executives_found m1 ++ executives_found m2 ∧
  strategic_insights m = strategic_insights m1 ++ strategic_insights m2 ∧
  outreach_angles m = outreach_angles m1 ++ outreach_angles m2 ∧
  key_quotes m = key_quotes m1 ++ key_quotes m2 ∧
  pain_points m = pain_points m1 ∪ pain_points m2 ∧
  youtube_intel m = youtube_intel m1 ++ youtube_intel m2 ∧
  article_intel m = article_intel m1 ++ article_intel m2.
Proof.
  intros m m1 m2. unfold m, m1, m2. rewrite !merge_deep_intel_fields.
  cbn [company_name domain processed_at youtube_intel article_intel executives_found
       strategic_insights outreach_angles key_quotes pain_points].
  rewrite !contributions_app. repeat split; try reflexivity.
  apply leibniz_equiv. apply list_to_set_app.
Qed.

(** X8: a pain point is in the merged set exactly when some YouTube result
    lists it. *)
Theorem X8_pain_points_membership
    (now company dom : pystr) (yts : list yt_result) (arts : list art_result) (p : pystr) :
  p ∈ pain_points (merge_deep_intel now company dom yts arts) ↔
  ∃ yt l, yt ∈ yts ∧ yt_pain_points yt = Some l ∧ p ∈ l.
Proof.
  rewrite merge_deep_intel_fields. cbn [pain_points]. rewrite elem_of_list_to_set.
  unfold contributions. rewrite list_elem_of_In, in_concat. split.
  - intros (l & Hl & Hp). apply in_map_iff in Hl.
    destruct Hl as (yt & <- & Hyt). exists yt.
    destruct (yt_pain_points yt) as [l|] eqn:E; simpl in Hp; [|done].
    exists l. split; [by apply list_elem_of_In|]. split; [done|by apply list_elem_of_In].
  - intros (yt & l & Hyt & Hl & Hp). exists l. split; [|by apply list_elem_of_In].
    apply in_map_iff. exists yt. rewrite Hl. split; [done|by apply list_elem_of_In].
Qed.

End AggregatorMore.

(** ** The extractors on a dict inside other text *)

Section FencedFacts.
Import Json.

Lemma is_ws_is_space x : is_ws x = true → Re.is_space x = true.
Proof.
  unfold is_ws. intros H.
  repeat (apply orb_true_iff in H as [H|H]); apply N.eqb_eq in H; subst x; done.
Qed.

Lemma is_space_facts x :
  Re.is_space x = true →
  no_open x ∧ no_close x ∧ no_tick x ∧ stops [x] ∧ (x =? ch "j")%N = false.
Proof.
  unfold Re.is_space, no_open, no_close, no_tick, stops, is_digit, ch. intros H.
  repeat (apply orb_true_iff in H as [H|H]);
    repeat (apply andb_true_iff in H as [H ?]);
    repeat match goal with
    | H : (_ <=? _)%N = true |- _ => apply N.leb_le in H
    | H : (_ =? _)%N = true |- _ => apply N.eqb_eq in H
    end;
    repeat split;
    try (apply N.eqb_neq; vm_compute N_of_ascii; lia);
    try (apply andb_false_iff; vm_compute N_of_ascii;
         destruct (N.leb_spec 48 x); [right; apply N.leb_gt; lia|by left]).
Qed.

Lemma skip_space_app w t :
  Forall (fun x => Re.is_space x = true) w → Re.skip_space (w ++ t) = Re.skip_space t.
Proof. induction 1 as [|x w Hx _ IH]; simpl; [done|]. by rewrite Hx. Qed.

Lemma skip_space_fence t : Re.skip_space (Re.fence ++ t) = Re.fence ++ t.
Proof. reflexivity. Qed.

Lemma greedy_body_none_gen w : Forall no_close w → Re.greedy_body w = None.
Proof.
  induction 1 as [|x w Hx _ IH]; [done|]. cbn [Re.greedy_body]. rewrite IH.
  unfold no_close in Hx. by rewrite Hx.
Qed.

Lemma greedy_body_last_gen c w :
  last c = Some (ch "}") → Forall no_close w → Re.greedy_body (c ++ w) = Some c.
Proof.
  intros Hlast Hw. induction c as [|x c IH]; [done|].
  cbn [app Re.greedy_body]. destruct c as [|y c].
  - cbn [app]. rewrite (greedy_body_none_gen w Hw). injection Hlast as ->. done.
  - rewrite IH; [done|]. exact Hlast.
Qed.

Lemma search_match_raw_gen pre c post :
  Forall no_open pre → Forall no_close post →
  head c = Some (ch "{") → last c = Some (ch "}") →
  Re.search Re.match_raw (pre ++ c ++ post) = Some c.
Proof.
  intros Hpre Hpost Hhead Hlast.
  destruct c as [|x c]; [done|]. injection Hhead as ->.
  assert (Re.match_raw ((ch "{" :: c) ++ post) = Some (ch "{" :: c)) as Hc.
  { cbn [app Re.match_raw]. rewrite N.eqb_refl.
    rewrite greedy_body_last_gen; [done| |done].
    destruct c as [|y c]; [discriminate Hlast|]. exact Hlast. }
  induction Hpre as [|y pre Hy _ IH]; cbn [app].
  - cbn [Re.search]. cbn [app] in Hc. by rewrite Hc.
  - cbn [Re.search Re.match_raw]. unfold no_open in Hy. by rewrite Hy.
Qed.

Lemma search_skips {A} (m : pystr → option A) pre t :
  (∀ x r, x ∈ pre → m (x :: r) = None) →
  Re.search m (pre ++ t) = Re.search m t.
Proof.
  induction pre as [|x pre IH]; intros H; [done|].
  cbn [app Re.search]. rewrite H by left. apply IH. intros y r Hy. apply H. by right.
Qed.

Lemma match_code_block_no_tick x r : no_tick x → Re.match_code_block (x :: r) = None.
Proof.
  unfold no_tick, Re.match_code_block. intros H.
  change (starts_with Re.fence (x :: r)) with ((ch "`" =? x)%N && starts_with (py "``") r).
  rewrite N.eqb_sym, H. done.
Qed.

(** The lazy run stops at a closing brace of [c'] that spaces and a
    fence follow. *)
Lemma lazy_body_prefix c' w2 t :
  last c' = Some (ch "}") → Forall (fun x => Re.is_space x = true) w2 →
  ∃ p q, c' = p ++ q ∧ p ≠ [] ∧
    Re.lazy_body (c' ++ w2 ++ Re.fence ++ t) = Some p ∧
    starts_with Re.fence (Re.skip_space (q ++ w2 ++ Re.fence ++ t)) = true.
Proof.
  intros Hlast Hw2. induction c' as [|x c' IH]; [done|].
  cbn [app Re.lazy_body].
  destruct ((x =? ch "}")%N && starts_with Re.fence (Re.skip_space (c' ++ w2 ++ Re.fence ++ t)))
    eqn:E.
  - exists [x], c'. split; [done|]. split; [done|]. split; [done|].
    by apply andb_true_iff in E as [_ E].
  - destruct c' as [|y c'].
    + exfalso. injection Hlast as ->. cbn [app] in E.
      rewrite skip_space_app, skip_space_fence in E by done. discriminate E.
    + destruct IH as (p & q & Hpq & Hp & Hl & Hs); [exact Hlast|].
      exists (x :: p), q. rewrite Hpq. split; [done|]. split; [done|].
      rewrite <- Hpq, Hl. done.
Qed.

Lemma scan_once_tick f t : scan_once f (ch "`" :: t) = None.
Proof. destruct f; reflexivity. Qed.

Lemma loads_tick t : loads (ch "`" :: t) = None.
Proof. unfold loads. cbn [skip_ws]. change (is_ws (ch "`")) with false. cbv iota.
  by rewrite scan_once_tick. Qed.

(** A proper prefix of a dict's text that is followed by spaces and a
    fence does not load. *)
Lemma prefix_does_not_load c d p q t :
  loads c = Some (JDict d) → head c = Some (ch "{") → last c = Some (ch "}") →
  c = p ++ q → q ≠ [] →
  starts_with Re.fence (Re.skip_space (q ++ t)) = true →
  loads p = None.
Proof.
  intros Hc Hhead Hlast -> Hq Hfence.
  destruct (loads p) as [v|] eqn:Hp; [exfalso|done].
  destruct p as [|x p]; [discriminate Hp|]. injection Hhead as ->.
  unfold loads in Hp, Hc. cbn [app] in Hc. rewrite skip_ws_stop in Hp, Hc by done.
  destruct (scan_once _ (ch "{" :: p)) as [[vp rp]|] eqn:Esp; [|discriminate].
  cbn [mbind option_bind] in Hp.
  destruct (skip_ws rp) eqn:Erp; [|discriminate]. apply skip_ws_nil_inv in Erp.
  destruct (parse_local (2 * length (ch "{" :: p) + 2)) as (Hv & _ & _).
  apply Hv in Esp as (cp & Heq & _ & _ & Hloc).
  assert (stops (rp ++ q)) as Hstops.
  { destruct rp as [|y rp]; [|apply is_ws_stops; by inversion Erp].
    destruct q as [|y q]; [done|]. cbn [app] in *.
    cbn [Re.skip_space] in Hfence. destruct (Re.is_space y) eqn:Ey.
    - by destruct (is_space_facts y Ey) as (_ & _ & _ & ? & _).
    - cbn [starts_with] in Hfence. apply andb_true_iff in Hfence as [Hy _].
      apply N.eqb_eq in Hy. by subst y. }
  specialize (Hloc (2 * length (ch "{" :: p ++ q) + 2)%nat (rp ++ q)).
  rewrite app_assoc, <- Heq in Hloc. cbn [app] in Hloc. rewrite Hloc in Hc; [| |done].
  2:{ change (ch "{" :: p ++ q) with ((ch "{" :: p) ++ q). rewrite Heq, !length_app. lia. }
  cbn [mbind option_bind] in Hc.
  destruct (skip_ws (rp ++ q)) eqn:Ews; [|discriminate].
  apply skip_ws_nil_inv in Ews. apply Forall_app in Ews as [_ Hqws].
  assert (last q = Some (ch "}")) as El.
  { change (ch "{" :: p ++ q) with ((ch "{" :: p) ++ q) in Hlast.
    rewrite last_app in Hlast.
    destruct (proj2 (last_is_Some q) Hq) as [z Hz]. by rewrite Hz in Hlast |- *. }
  apply last_Some in El as (q' & ->). apply Forall_app in Hqws as [_ Hz].
  inversion Hz as [|? ? Hz' _]. discriminate Hz'.
Qed.

Lemma ws_are_spaces w :
  Forall (fun x => is_ws x = true) w → Forall (fun x => Re.is_space x = true) w.
Proof. intros H. eapply Forall_impl; [exact H|]. apply is_ws_is_space. Qed.

(** What the code block pattern finds in a fenced dict, and whether it
    loads. *)
Lemma try_code_block_fenced pre tag inner post d :
  Forall no_tick pre → tag = [] ∨ tag = py "json" →
  loads inner = Some (JDict d) →
  let text := pre ++ Re.fence ++ tag ++ inner ++ Re.fence ++ post in
  try_code_block text = Some (JDict d) ∨ try_code_block text = None.
Proof.
  intros Hpre Htag Hinner text.
  apply loads_dict_shape in Hinner as (w1 & c & w2 & -> & Hw1 & Hw2 & Hh & Hl & Hc).
  destruct c as [|x c']; [done|]. pose proof Hh as Hh'. injection Hh' as ->.
  assert (last c' = Some (ch "}")) as Hl'.
  { destruct c' as [|y c']; [discriminate Hl|exact Hl]. }
  destruct (lazy_body_prefix c' w2 post Hl' (ws_are_spaces _ Hw2))
    as (p & q & Hpq & Hp & Hlazy & Hfence).
  set (rest := (w1 ++ (ch "{" :: c') ++ w2) ++ Re.fence ++ post) in *.
  assert (Re.block_group rest = Some (ch "{" :: p)) as Hgroup.
  { unfold Re.block_group, rest. rewrite <- !app_assoc.
    rewrite skip_space_app by (by apply ws_are_spaces).
    cbn [app Re.skip_space]. change (Re.is_space (ch "{")) with false. cbv iota.
    rewrite N.eqb_refl. by rewrite Hlazy. }
  assert (starts_with (py "json") rest = false) as Hnotag.
  { unfold rest. rewrite <- !app_assoc. destruct Hw1 as [|y w1 Hy _]; [done|].
    cbn [app]. change (starts_with (py "json") (y :: ?t)) with
      ((ch "j" =? y)%N && starts_with (py "son") t).
    destruct (is_space_facts y (is_ws_is_space y Hy)) as (_ & _ & _ & _ & Hj).
    by rewrite N.eqb_sym, Hj. }
  assert (Re.match_code_block (Re.fence ++ tag ++ rest) = Some (ch "{" :: p)) as Hmatch.
  { destruct Htag as [-> | ->].
    - unfold Re.match_code_block. rewrite starts_with_app.
      change (drop 3 (Re.fence ++ ?t)) with t. cbn [app]. by rewrite Hnotag.
    - unfold Re.match_code_block. rewrite starts_with_app.
      change (drop 3 (Re.fence ++ ?t)) with t. rewrite starts_with_app.
      change (drop 4 (py "json" ++ ?t)) with t. by rewrite Hgroup. }
  assert (Re.search Re.match_code_block text = Some (ch "{" :: p)) as Hsearch.
  { unfold text. rewrite search_skips.
    - destruct (Re.fence ++ tag ++ rest) eqn:E; cbn [Re.search]; by rewrite Hmatch.
    - intros y r Hy. apply match_code_block_no_tick.
      rewrite Forall_forall in Hpre. by apply Hpre. }
  unfold try_code_block. rewrite Hsearch. cbn [mbind option_bind].
  destruct q as [|y q].
  - left. rewrite app_nil_r in Hpq. by rewrite <- Hpq.
  - right. eapply (prefix_does_not_load (ch "{" :: c') d (ch "{" :: p) (y :: q));
      [exact Hc|done|exact Hl|by rewrite Hpq|done|exact Hfence].
Qed.

Lemma ws_no_braces w :
  Forall (fun x => is_ws x = true) w → Forall no_open w ∧ Forall no_close w.
Proof.
  intros H. split; (eapply Forall_impl; [exact H|]); intros x Hx;
    by destruct (is_ws_not_brace x Hx).
Qed.

(** What the raw pattern finds when a dict's text stands between a text
    without an opening brace and a text without a closing brace. *)
Lemma try_raw_embedded pre inner post d :
  Forall no_open pre → Forall no_close post →
  loads inner = Some (JDict d) →
  try_raw (pre ++ inner ++ post) = Some (JDict d).
Proof.
  intros Hpre Hpost Hinner.
  apply loads_dict_shape in Hinner as (w1 & c & w2 & -> & Hw1 & Hw2 & Hh & Hl & Hc).
  destruct (ws_no_braces w1 Hw1) as [Hw1o _]. destruct (ws_no_braces w2 Hw2) as [_ Hw2c].
  unfold try_raw.
  replace (pre ++ (w1 ++ c ++ w2) ++ post) with ((pre ++ w1) ++ c ++ (w2 ++ post))
    by (by rewrite <- !app_assoc).
  rewrite search_match_raw_gen; [exact Hc| | |done|done].
  - by apply Forall_app.
  - by apply Forall_app.
Qed.

End FencedFacts.

Section FencedClaims.

Lemma fence_no_open_close tag :
  tag = [] ∨ tag = py "json" →
  Forall no_open (Re.fence ++ tag) ∧ Forall no_close Re.fence.
Proof.
  intros [-> | ->]; split; repeat constructor.
Qed.





End FencedClaims.

(** ** Reading a dict after an assignment *)

Section DictFacts.

Lemma dict_get_set_eq key v d : dict_get key (dict_set key v d) = Some v.
Proof.
  induction d as [|[k w] d IH]; cbn [dict_set dict_get].
  - by rewrite decide_True.
  - destruct (decide (k = key)) as [->|Hne]; cbn [dict_get].
    + by rewrite decide_True.
    + by rewrite decide_False.
Qed.

Lemma dict_get_set_ne key key' v d :
  key ≠ key' → dict_get key' (dict_set key v d) = dict_get key' d.
Proof.
  intros Hne. induction d as [|[k w] d IH]; cbn [dict_set dict_get].
  - by rewrite decide_False.
  - destruct (decide (k = key)) as [->|Hk]; cbn [dict_get].
    + by rewrite !decide_False.
    + destruct (decide (k = key')); [done|]. exact IH.
Qed.

End DictFacts.

Ltac py_ne := let H := fresh in intros H; vm_compute in H; discriminate H.


(** ** Truth values of floats *)

Section TruthFacts.

Example json_truthy_examples :
  json_truthy (JFloat (py "0.0")) = false ∧
  json_truthy (JFloat (py "-0e5")) = false ∧
  json_truthy (JFloat (py "1e-400")) = false ∧
  json_truthy (JFloat (py "2.5")) = true ∧
  json_truthy (JFloat (py "NaN")) = true ∧
  json_truthy (JInt 0) = false ∧
  json_truthy (JStr (py "0")) = true ∧
  json_truthy (JList []) = false.
Proof. by vm_compute. Qed.

Example decimal_value_example :
  decimal_value (py "-12.5e1") = Some (- (inject_Z 125 * 10 ^ 0))%Q.
Proof. by vm_compute. Qed.

End TruthFacts.

(** ** Deep processing of one source *)

Section DeepProcess.
Import DeepAnalysis.

Lemma tag_result_get result url source_type d :
  tag_result result url source_type = Some d →
  dict_get (py "source_url") d = Some (JStr url) ∧
  dict_get (py "source_type") d = Some (JStr (py source_type)) ∧
  ∃ d0, result = JDict d0 ∧
    ∀ key, key ≠ py "source_url" → key ≠ py "source_type" →
      dict_get key d = dict_get key d0.
Proof.
  destruct result as [| | | | |l|d0]; try discriminate.
  cbn [tag_result]. intros [= <-]. split; [|split].
  - rewrite dict_get_set_ne by py_ne. apply dict_get_set_eq.
  - apply dict_get_set_eq.
  - exists d0. split; [done|]. intros key H1 H2.
    rewrite dict_get_set_ne by done. by rewrite dict_get_set_ne.
Qed.

Lemma tag_result_dict d url source_type :
  is_Some (tag_result (JDict d) url source_type).
Proof. by eexists. Qed.


Example tagged_object_example :
  dict_get (py "source_url") (process_youtube (Text tagged_object_text) (py "u"))
  = Some (JStr (py "u")) ∧
  dict_get (py "pain_points") (process_youtube (Text tagged_object_text) (py "u"))
  = Some (JList []).
Proof. by vm_compute. Qed.

End DeepProcess.

(** ** From the response to the confidence level *)

Section RevenueResearch.
Import Revenue.

Lemma set_if_absent_dict key value d :
  ∃ d', set_if_absent key value (JDict d) = Some (JDict d') ∧
    dict_get (py key) d' = Some (default (JStr value) (dict_get (py key) d)) ∧
    ∀ key', key' ≠ py key → dict_get key' d' = dict_get key' d.
Proof.
  unfold set_if_absent. cbn [py_in mbind option_bind].
  destruct (dict_get (py key) d) as [v|] eqn:E.
  - rewrite bool_decide_true by by eexists. exists d. by rewrite E.
  - rewrite bool_decide_false by by intros [? [=]].
    cbn [py_setitem]. eexists. split; [done|]. split.
    + apply dict_get_set_eq.
    + intros key' Hne. by apply dict_get_set_ne.
Qed.





End RevenueResearch.

(** ** What the collectors of discovery return *)

Section DiscoveryCollect.
Import Discovery.

Lemma search_found {A} (f : pystr → option A) s m :
  Re.search f s = Some m → ∃ s', f s' = Some m.
Proof.
  induction s as [|c s IH]; cbn [Re.search].
  - destruct (f []) eqn:E; [|done]. intros [= <-]. by exists [].
  - destruct (f (c :: s)) eqn:E.
    + intros [= <-]. by eexists.
    + exact IH.
Qed.

Lemma block_group_head s g : Re.block_group s = Some g → head g = Some (ch "{").
Proof.
  unfold Re.block_group. destruct (Re.skip_space s) as [|c s']; [done|].
  destruct (c =? ch "{")%N eqn:E; [|done]. apply N.eqb_eq in E as ->.
  destruct (Re.lazy_body s'); [|done]. by intros [= <-].
Qed.

Lemma match_code_block_head s g :
  Re.match_code_block s = Some g → head g = Some (ch "{").
Proof.
  unfold Re.match_code_block. destruct (starts_with Re.fence s); [|done].
  destruct (starts_with (py "json") (drop 3 s)).
  - destruct (Re.block_group (drop 4 (drop 3 s))) eqn:E.
    + intros [= <-]. by eapply block_group_head.
    + apply block_group_head.
  - apply block_group_head.
Qed.

Lemma match_raw_head s g : Re.match_raw s = Some g → head g = Some (ch "{").
Proof.
  destruct s as [|c s']; [done|]. cbn [Re.match_raw].
  destruct (c =? ch "{")%N eqn:E; [|done]. apply N.eqb_eq in E as ->.
  destruct (Re.greedy_body s'); [|done]. by intros [= <-].
Qed.

Lemma loads_brace_dict s v :
  head s = Some (ch "{") → Json.loads s = Some v → ∃ d, v = JDict d.
Proof.
  destruct s as [|c s']; [done|]. intros [= ->]. unfold Json.loads.
  change (Json.skip_ws (ch "{" :: s')) with (ch "{" :: s').
  replace (2 * length (ch "{" :: s') + 2)%nat with (S (2 * length s' + 3))
    by (cbn [length]; lia).
  cbn [Json.scan_once].
  change (ch "{" =? c_quote)%N with false. change (ch "{" =? ch "{")%N with true.
  cbv iota.
  destruct (Json.skip_ws s') as [|c2 s2]; [done|].
  destruct (c2 =? ch "}")%N.
  - cbn [mbind option_bind]. destruct (Json.skip_ws s2); [|done].
    intros [= <-]. by eexists.
  - destruct (c2 =? c_quote)%N; [|done].
    destruct (Json.parse_members _ s2) as [[pairs rest]|]; [|done].
    cbn [mbind option_bind]. destruct (Json.skip_ws rest); [|done].
    intros [= <-]. by eexists.
Qed.

Lemma discovery_parsed_dict text v :
  parsed text = Some v → ∃ d, v = JDict d.
Proof.
  unfold parsed, try_code_block, try_raw.
  destruct (Re.search Re.match_code_block text) as [g|] eqn:Eb; cbn [mbind option_bind].
  - apply search_found in Eb as [s' Hs']. apply match_code_block_head in Hs'.
    destruct (Json.loads g) as [v'|] eqn:El.
    + intros [= <-]. by eapply loads_brace_dict.
    + destruct (Re.search Re.match_raw text) as [g'|] eqn:Er; [|done].
      cbn [mbind option_bind]. apply search_found in Er as [s'' Hs''].
      apply match_raw_head in Hs''. intros Hl. by eapply loads_brace_dict.
  - destruct (Re.search Re.match_raw text) as [g'|] eqn:Er; [|done].
    cbn [mbind option_bind]. apply search_found in Er as [s'' Hs''].
    apply match_raw_head in Hs''. intros Hl. by eapply loads_brace_dict.
Qed.

Lemma discovery_extract_json_dict text : ∃ d, extract_json text = JDict d.
Proof.
  rewrite discovery_extract_json_parsed.
  destruct (parsed text) as [v|] eqn:E; [|by eexists].
  apply discovery_parsed_dict in E as [d ->]. by eexists.
Qed.

Lemma collect_company_intel_dict r : ∃ d, collect_company_intel r = JDict d.
Proof. destruct r as [text|message]; [apply discovery_extract_json_dict|by eexists]. Qed.

(** X14: in discovery.py every pattern starts its group with an opening
    brace, so whatever [extract_json] returns is a dict: a group that
    [json.loads] parses is a dict, and so is the failure value.
    [collect_company_intel] and [collect_acquirer_intel], which catch
    every exception, return a dict whatever the API call does. The
    extractors of deep_analysis.py and revenue.py parse the whole text
    first and return the list when the response is a JSON list, on which
    [research_revenue] raises. *)
Theorem X14_discovery_results_are_dicts :
  (∀ text group v,
     Re.search Re.match_code_block text = Some group ∨
     Re.search Re.match_raw text = Some group →
     Json.loads group = Some v → ∃ d, v = JDict d) ∧
  (∀ text v, parsed text = Some v → ∃ d, v = JDict d) ∧
  (∀ text, ∃ d, failure text = JDict d) ∧
  (∀ r, ∃ d, collect_company_intel r = JDict d) ∧
  (∀ client acquirer_name acquirer_domain acquired_company acquisition_date,
     ∃ d, (collect_acquirer_intel client acquirer_name acquirer_domain
             acquired_company acquisition_date).1 = JDict d) ∧
  DeepAnalysis.extract_json (py "[]") = JList [] ∧
  Revenue.extract_json (py "[]") = JList [] ∧
  ∀ domain company_name,
    Revenue.research_revenue (Text (py "[]")) domain company_name = None.
Proof.
  split.
  { intros text group v [Hs|Hs] Hl; apply search_found in Hs as [s' Hs'].
    - apply match_code_block_head in Hs'. by eapply loads_brace_dict.
    - apply match_raw_head in Hs'. by eapply loads_brace_dict. }
  split; [apply discovery_parsed_dict|].
  split; [by eexists|].
  split; [apply collect_company_intel_dict|].
  split; [|by vm_compute].
  intros client n d c dt. unfold collect_acquirer_intel. cbn [fst].
  destruct (client _); [apply discovery_extract_json_dict|by eexists].
Qed.

End DiscoveryCollect.


(** ** The follow-up on an acquisition *)

Section Acquisitions.
Import Discovery.

Lemma mapM_as_dict changes : mapM as_dict (JDict <$> changes) = Some changes.
Proof.
  induction changes as [|oc changes IH]; [done|].
  cbn [fmap list_fmap mapM]. cbn [as_dict mbind option_bind].
  change (mapM as_dict (JDict <$> changes)) with (mapM as_dict (JDict <$> changes)) in IH.
  by rewrite IH.
Qed.

Lemma filter_none {A} (f : A → bool) l :
  List.filter f l = [] ↔ Forall (fun x => f x = false) l.
Proof.
  induction l as [|x l IH]; cbn [List.filter].
  - split; [constructor|done].
  - destruct (f x) eqn:E.
    + split; [done|]. intros H. inversion H; congruence.
    + rewrite IH. split; [by constructor|]. by inversion 1.
Qed.

Lemma filter_first {A} (f : A → bool) before x after :
  Forall (fun y => f y = false) before → f x = true →
  List.filter f (before ++ x :: after) = x :: List.filter f after.
Proof.
  intros Hb Hx. rewrite List.filter_app. apply filter_none in Hb. rewrite Hb.
  cbn [app List.filter]. by rewrite Hx.
Qed.

Lemma process_acquisitions_changes client intel changes company_name :
  dict_get (py "ownership_changes") intel = Some (JList (JDict <$> changes)) →
  process_acquisitions client (JDict intel) company_name
  = Some match List.filter is_acquisition changes with
         | [] => (None, [])
         | primary :: _ => follow_up client primary company_name
         end.
Proof.
  intros Hget. unfold process_acquisitions. cbn [as_dict mbind option_bind].
  rewrite Hget. cbn [from_option id].
  destruct changes as [|oc changes']; [done|].
  change (json_truthy (JList (JDict <$> oc :: changes'))) with true. cbn [negb].
  rewrite mapM_as_dict. cbn [mbind option_bind].
  destruct (List.filter is_acquisition (oc :: changes')) as [|primary rest]; [done|].
  unfold follow_up, collect_acquirer_intel.
  by destruct (negb _).
Qed.

Lemma follow_up_sent client primary company_name :
  let name := default (JStr []) (dict_get (py "counterparty_name") primary) in
  let '(result, sent) := follow_up client primary company_name in
  ∃ d, result = Some d ∧ dict_get (py "detected") d = Some (JBool true) ∧
    (length sent ≤ 1)%nat ∧
    (sent = [] ↔ json_truthy name = false) ∧
    (∀ prompt, prompt ∈ sent →
       acquirer_name prompt = name ∧ acquired_company prompt = company_name) ∧
    (json_truthy name = true → dict_get (py "acquirer_name") d = Some name).
Proof.
  intros name. unfold follow_up. fold name.
  destruct (json_truthy name) eqn:En; cbn [negb].
  - unfold collect_acquirer_intel. eexists. split; [done|]. split; [done|].
    split; [cbn [length]; lia|]. split; [done|]. split; [|done].
    intros prompt Hin. by apply list_elem_of_singleton in Hin as ->.
  - eexists. split; [done|]. split; [done|]. split; [cbn [length]; lia|].
    split; [done|]. split; [|done]. intros prompt Hin. by apply elem_of_nil in Hin.
Qed.



Lemma mapM_as_dict_inv l changes :
  mapM as_dict l = Some changes → l = JDict <$> changes.
Proof.
  revert changes. induction l as [|v l IH]; intros changes.
  - by intros [= <-].
  - cbn [mapM]. destruct v as [| | | | | |d]; try done.
    cbn [as_dict mbind option_bind].
    destruct (mapM as_dict l) as [changes'|]; [|done].
    cbn [mbind option_bind mret option_ret]. intros [= <-].
    cbn [fmap list_fmap]. f_equal. by apply IH.
Qed.


End Acquisitions.

(** ** The order of the reports *)

Ltac zcases :=
  repeat (match goal with
          | |- context [(?a <? ?b)] => destruct (Z.ltb_spec a b)
          | |- context [(?a <=? ?b)] => destruct (Z.leb_spec a b)
          | H : context [(?a <? ?b)] |- _ => destruct (Z.ltb_spec a b)
          | H : context [(?a <=? ?b)] |- _ => destruct (Z.leb_spec a b)
          end; cbv beta iota in *);
  try done; try (exfalso; lia).

Section SortFacts.
Context {A : Type} (key : A → Z).

Lemma insert_reverse_perm x l : insert_reverse key x l ≡ₚ x :: l.
Proof.
  induction l as [|y l IH]; cbn [insert_reverse]; [done|].
  destruct (key y <=? key x); [done|].
  rewrite IH. apply Permutation_swap.
Qed.

Lemma py_sorted_reverse_perm l : py_sorted_reverse key l ≡ₚ l.
Proof.
  induction l as [|x l IH]; [done|].
  cbn [py_sorted_reverse foldr]. fold (py_sorted_reverse key l).
  by rewrite insert_reverse_perm, IH.
Qed.

Lemma insert_reverse_descending x l :
  descending key l → descending key (insert_reverse key x l).
Proof.
  induction l as [|y l IH]; cbn [insert_reverse descending].
  - by split.
  - intros [Hy Hl]. destruct (key y <=? key x) eqn:E.
    + apply Z.leb_le in E. cbn [descending]. split; [|done].
      constructor; [done|]. eapply Forall_impl; [exact Hy|]. cbn. intros; lia.
    + apply Z.leb_gt in E. cbn [descending]. split; [|by apply IH].
      rewrite insert_reverse_perm. constructor; [lia|done].
Qed.

Lemma py_sorted_reverse_descending l : descending key (py_sorted_reverse key l).
Proof.
  induction l as [|x l IH]; [done|].
  cbn [py_sorted_reverse foldr]. by apply insert_reverse_descending.
Qed.

Lemma insert_reverse_with_key k x l :
  with_key key k (insert_reverse key x l) = with_key key k (x :: l).
Proof.
  unfold with_key. induction l as [|y l IH]; cbn [insert_reverse]; [done|].
  destruct (key y <=? key x) eqn:E; [done|]. apply Z.leb_gt in E.
  cbn [List.filter] in *. rewrite IH.
  destruct (key x =? k) eqn:Ex, (key y =? k) eqn:Ey; try done. lia.
Qed.

Lemma py_sorted_reverse_with_key k l :
  with_key key k (py_sorted_reverse key l) = with_key key k l.
Proof.
  induction l as [|x l IH]; [done|].
  cbn [py_sorted_reverse foldr]. rewrite insert_reverse_with_key.
  unfold with_key in *. cbn [List.filter]. fold (py_sorted_reverse key l).
  by rewrite IH.
Qed.

Lemma descending_app l1 l2 x y :
  descending key (l1 ++ l2) → x ∈ l1 → y ∈ l2 → key y ≤ key x.
Proof.
  induction l1 as [|a l1 IH]; cbn [app descending].
  - intros _ Hx. by apply elem_of_nil in Hx.
  - intros [Ha Hd] Hx Hy. apply elem_of_cons in Hx as [->|Hx]; [|by apply IH].
    rewrite Forall_forall in Ha. apply Ha. apply elem_of_app. by right.
Qed.

Lemma py_max_key_cons x y ys :
  py_max_key key (x :: y :: ys)
  = (fun m => if key m <=? key x then x else m) <$> py_max_key key (y :: ys).
Proof.
  cbn [py_max_key fmap option_fmap option_map].
  f_equal. revert x y. induction ys as [|z zs IH]; intros x y.
  - cbn [fold_left]. by zcases.
  - cbn [fold_left] in *. rewrite IH. rewrite (IH y z).
    set (M := fold_left _ zs z). by zcases.
Qed.

Lemma head_insert_reverse x l :
  head (insert_reverse key x l)
  = Some (match head l with
          | Some m => if key m <=? key x then x else m
          | None => x
          end).
Proof.
  destruct l as [|y l]; [done|]. cbn [insert_reverse head].
  by destruct (key y <=? key x).
Qed.

Lemma head_sorted_is_max l :
  head (py_sorted_reverse key l) = py_max_key key l.
Proof.
  induction l as [|x l IH]; [done|].
  cbn [py_sorted_reverse foldr]. fold (py_sorted_reverse key l).
  rewrite head_insert_reverse, IH.
  destruct l as [|y ys]; [done|].
  rewrite py_max_key_cons. by cbn [py_max_key].
Qed.

Lemma fold_left_max_key (l : list A) x :
  key (fold_left (fun best y => if key best <? key y then y else best) l x)
  = fold_left Z.max (List.map key l) (key x).
Proof.
  revert x. induction l as [|y l IH]; intros x; [done|].
  cbn [fold_left List.map]. rewrite IH. f_equal.
  destruct (key x <? key y) eqn:E; lia.
Qed.

Lemma py_max_key_value l :
  key <$> py_max_key key l = Revenue.py_max_Z (List.map key l).
Proof.
  destruct l as [|x l]; [done|].
  cbn [py_max_key List.map Revenue.py_max_Z fmap option_fmap option_map].
  by rewrite fold_left_max_key.
Qed.

End SortFacts.

Section ReportClaims.
Import Revenue.

(** X17: the estimate that the report recommends, [max] by credibility,
    is the first row of the table sorted by credibility, and its
    credibility is the largest of all. The table holds the same estimates,
    no row has a smaller credibility than a later one, and estimates of
    equal credibility keep their order. *)
Theorem X17_recommended_estimate_heads_the_table
    {A} (credibility : A → Z) (estimates : list A) :
  head (sorted_est credibility estimates) = best credibility estimates ∧
  credibility <$> best credibility estimates
  = py_max_Z (List.map credibility estimates) ∧
  sorted_est credibility estimates ≡ₚ estimates ∧
  descending credibility (sorted_est credibility estimates) ∧
  (∀ k, with_key credibility k (sorted_est credibility estimates)
        = with_key credibility k estimates) ∧
  ∀ entries : list estimate,
    let score e := default 0 (credibility_score e) in
    score <$> best score entries = best_credibility entries.
Proof.
  unfold sorted_est, best. split; [apply head_sorted_is_max|].
  split; [apply py_max_key_value|]. split; [apply py_sorted_reverse_perm|].
  split; [apply py_sorted_reverse_descending|].
  split; [intros k; apply py_sorted_reverse_with_key|].
  intros entries. cbv zeta. apply py_max_key_value.
Qed.

(** X18: the text report of discovery shows ten statements, or all when
    there are fewer, in descending relevance; the statements it leaves out
    are none more relevant than one it shows. *)
Theorem X18_shown_statements_are_the_most_relevant
    {A} (relevance : A → Z) (statements : list A) :
  let shown := Discovery.shown_statements relevance statements in
  length shown = Nat.min 10 (length statements) ∧
  descending relevance shown ∧
  ∃ hidden, shown ++ hidden ≡ₚ statements ∧
    ∀ x y, x ∈ shown → y ∈ hidden → relevance y ≤ relevance x.
Proof.
  intros shown. subst shown. unfold Discovery.shown_statements.
  pose proof (py_sorted_reverse_perm relevance statements) as Hp.
  pose proof (py_sorted_reverse_descending relevance statements) as Hd.
  set (sorted := py_sorted_reverse relevance statements) in *.
  split; [|split].
  - rewrite length_take. by rewrite Hp.
  - clear Hp. generalize 10%nat as n. revert Hd.
    induction sorted as [|x l IH]; intros Hd n; [by destruct n|].
    destruct n as [|n]; [done|]. cbn [take descending] in *.
    destruct Hd as [Hx Hl]. split; [|by apply IH].
    apply Forall_take. exact Hx.
  - exists (drop 10 sorted). split; [by rewrite take_drop|].
    intros x y Hx Hy. eapply descending_app; [|exact Hx|exact Hy].
    by rewrite take_drop.
Qed.

End ReportClaims.
